(** * SingleLinkedList: a shallow embedding of [src/main.cpp]

    The container is a singly linked chain of heap nodes hanging off a
    sentinel node that lives inside the list object.  The embedding keeps
    the things the C++ code manipulates apart:

    - the free store, a finite map from addresses to [Node]s;
    - the list objects themselves (sentinel link and [size_]), a finite map
      from object names to [SingleLinkedList] records, so that two
      references may name the same object;
    - the elements of the sentinels: [head_] is a [Node], so every list
      object carries one default-constructed element of its own;
    - the part of the world the element type talks to (counters touched by
      constructors and destructors, the allocator's state).

    Methods are computations in a small state-and-exception monad.  A
    computation ends normally, by a thrown exception, in undefined
    behaviour, or by exhausting the fuel given to its loops. *)

From Stdlib Require Import ZArith Lia.
From stdpp Require Import base gmap list.

(** ** Pointers and exceptions *)

(** A [Node *]: null, the address of the sentinel [head_] of a list object,
    or the address of a node obtained from [new]. *)
Inductive NodePtr : Type :=
  | nullptr
  | head_of (o : positive)
  | heap_node (a : positive).

#[global] Instance NodePtr_eq_dec : EqDecision NodePtr.
Proof. solve_decision. Defined.

(** What a [throw] carries, as far as the [catch] clauses of the container
    can tell: [std::bad_alloc] and the rest of the [std::exception] family
    are matched by [catch (const std::exception &)], anything else is not. *)
Inductive exception : Type :=
  | bad_alloc
  | std_exception (what : nat)
  | foreign_exception (what : nat).

Definition is_std_exception (e : exception) : bool :=
  match e with
  | foreign_exception _ => false
  | _ => true
  end.

(** [size_t] is 64 bits wide; so are addresses. *)
Definition SIZE_WIDTH : Z := 64.
Definition size_t_wrap (z : Z) : Z := (z mod 2 ^ SIZE_WIDTH)%Z.

Module SLL.
Section Container.

(** The element type [Type], what its copy constructor and destructor do
    to the outside world, its [!=] and [<], and the allocator.  A copy
    either throws or yields a value equal to its source. *)
Context {Type_ World : Type}.
Variable Type_copy : Type_ -> World -> World * option exception.
Variable Type_dtor : Type_ -> World -> World.
Variable Type_ne : Type_ -> Type_ -> bool.
Variable Type_lt : Type_ -> Type_ -> bool.
(** [operator new]: [None] is exhaustion, [Some a] the address offered. *)
Variable operator_new : World -> World * option positive.
(** The default constructor [Type()]: it throws or yields an element. *)
Variable Type_ctor : World -> World * (exception + Type_).

(** [struct Node { Type value; Node *next_node; }] *)
Record Node : Type := mkNode { value : Type_; next_node : NodePtr }.

(** The list object: [head_.next_node] and [size_].  The other member of
    the sentinel, [head_.value], is kept beside it, in [sentinels]. *)
Record SingleLinkedList : Type :=
  mkList { head_next_node : NodePtr; size_ : Z }.

(** [sentinels] holds [head_.value] of every list object whose [head_] is
    alive. *)
Record Mem : Type := mkMem {
  heap : gmap positive Node;
  objs : gmap positive SingleLinkedList;
  sentinels : gmap positive Type_;
  world : World
}.

(** ** The monad *)

Inductive outcome (A : Type) : Type :=
  | Normal (a : A) (m : Mem)
  | Thrown (e : exception) (m : Mem)
  | Undefined
  | OutOfFuel.
Arguments Normal {A} a m.
Arguments Thrown {A} e m.
Arguments Undefined {A}.
Arguments OutOfFuel {A}.

Definition M (A : Type) : Type := Mem -> outcome A.

Definition ret {A} (a : A) : M A := fun m => Normal a m.
Definition throw {A} (e : exception) : M A := fun m => Thrown e m.
Definition undefined {A} : M A := fun _ => Undefined.

Definition bind {A B} (c : M A) (k : A -> M B) : M B :=
  fun m =>
    match c m with
    | Normal a m' => k a m'
    | Thrown e m' => Thrown e m'
    | Undefined => Undefined
    | OutOfFuel => OutOfFuel
    end.

Notation "x <- c ;; k" := (bind c (fun x => k))
  (at level 100, c at next level, right associativity).
Notation "c ;;; k" := (bind c (fun _ => k))
  (at level 100, right associativity).

(** [try { body } catch (const std::exception &) { handler; }]: only the
    [std::exception] family enters the handler, which receives the
    exception so that [throw;] can send it on. *)
Definition try_catch_std {A} (body : M A) (handler : exception -> M A) : M A :=
  fun m =>
    match body m with
    | Thrown e m' =>
        if is_std_exception e then handler e m' else Thrown e m'
    | r => r
    end.

(** Loops.  A body either asks for another round or leaves the loop. *)
Inductive step (S : Type) : Type :=
  | Continue (s : S)
  | Break (s : S).
Arguments Continue {S} s.
Arguments Break {S} s.

Fixpoint loop {S} (fuel : nat) (body : S -> M (step S)) (s : S) : M S :=
  match fuel with
  | O => fun _ => OutOfFuel
  | Datatypes.S fuel' =>
      r <- body s ;;
      match r with
      | Continue s' => loop fuel' body s'
      | Break s' => ret s'
      end
  end.

(** [while (cond) { body }] over loop variables [s]. *)
Definition while_ {S} (fuel : nat) (cond : S -> M bool) (body : S -> M S)
    (s : S) : M S :=
  loop fuel
    (fun s => b <- cond s ;;
              if b : bool then s' <- body s ;; ret (Continue s')
              else ret (Break s))
    s.

(** [do { body } while (cond)]. *)
Definition do_while {S} (fuel : nat) (body : S -> M S) (cond : S -> M bool)
    (s : S) : M S :=
  loop fuel
    (fun s => s' <- body s ;;
              b <- cond s' ;;
              ret (if b : bool then Continue s' else Break s'))
    s.

(** ** Memory accesses *)

(** Reading a member of list object [o]. *)
Definition read_obj (o : positive) : M SingleLinkedList :=
  fun m =>
    match objs m !! o with
    | Some l => Normal l m
    | None => Undefined
    end.

Definition write_obj (o : positive) (l : SingleLinkedList) : M unit :=
  fun m => Normal tt (mkMem (heap m) (<[o := l]> (objs m)) (sentinels m) (world m)).

Definition get_head (o : positive) : M NodePtr :=
  l <- read_obj o ;; ret (head_next_node l).
Definition set_head (o : positive) (p : NodePtr) : M unit :=
  l <- read_obj o ;; write_obj o (mkList p (size_ l)).
Definition get_size (o : positive) : M Z :=
  l <- read_obj o ;; ret (size_ l).
Definition set_size (o : positive) (n : Z) : M unit :=
  l <- read_obj o ;; write_obj o (mkList (head_next_node l) n).

(** [p->next_node] *)
Definition load_next (p : NodePtr) : M NodePtr :=
  match p with
  | nullptr => undefined
  | head_of o => get_head o
  | heap_node a =>
      fun m =>
        match heap m !! a with
        | Some n => Normal (next_node n) m
        | None => Undefined
        end
  end.

(** [p->value] *)
Definition load_value (p : NodePtr) : M Type_ :=
  match p with
  | nullptr => undefined
  | head_of o =>
      fun m =>
        match sentinels m !! o with
        | Some v => Normal v m
        | None => Undefined
        end
  | heap_node a =>
      fun m =>
        match heap m !! a with
        | Some n => Normal (value n) m
        | None => Undefined
        end
  end.

(** [new Node(val, next)]: storage first, then the element is copied into
    it; when the copy throws the storage goes back and nothing was
    linked.  An address that is live, or outside the address space, is
    never handed out: such an answer of the allocator counts as
    exhaustion. *)
Definition new_Node (val : Type_) (next : NodePtr) : M NodePtr :=
  fun m =>
    let '(w1, oa) := operator_new (world m) in
    match oa with
    | None => Thrown bad_alloc (mkMem (heap m) (objs m) (sentinels m) w1)
    | Some a =>
        if bool_decide (heap m !! a = None) && (Z.pos a <? 2 ^ SIZE_WIDTH)%Z
        then
          let '(w2, r) := Type_copy val w1 in
          match r with
          | Some e => Thrown e (mkMem (heap m) (objs m) (sentinels m) w2)
          | None =>
              Normal (heap_node a)
                (mkMem (<[a := mkNode val next]> (heap m)) (objs m)
                       (sentinels m) w2)
          end
        else Thrown bad_alloc (mkMem (heap m) (objs m) (sentinels m) w1)
    end.

(** [delete p]: the element's destructor runs and the node is gone. *)
Definition delete_Node (p : NodePtr) : M unit :=
  match p with
  | nullptr => ret tt
  | head_of _ => undefined
  | heap_node a =>
      fun m =>
        match heap m !! a with
        | Some n =>
            Normal tt
              (mkMem (delete a (heap m)) (objs m) (sentinels m)
                     (Type_dtor (value n) (world m)))
        | None => Undefined
        end
  end.

(** ** Iterators

    A [BasicIterator] is its [node_].  [operator==] and [operator!=]
    compare the pointers, whatever the constness of either side. *)
Definition Iterator_eq (a b : NodePtr) : bool := bool_decide (a = b).
Definition Iterator_ne (a b : NodePtr) : bool := negb (bool_decide (a = b)).
(** [++it] *)
Definition Iterator_incr (it : NodePtr) : M NodePtr := load_next it.
(** [*it] *)
Definition Iterator_deref (it : NodePtr) : M Type_ := load_value it.

(** ** Methods of [SingleLinkedList] *)

(** [Iterator begin() noexcept] *)
Definition begin (this : positive) : M NodePtr := get_head this.

(** [Iterator end() noexcept]: walks from [&head_] to the last node and
    steps once more. *)
Definition end_ (fuel : nat) (this : positive) : M NodePtr :=
  it <- while_ fuel
          (fun it => n <- load_next it ;; ret (negb (bool_decide (n = nullptr))))
          (fun it => Iterator_incr it)
          (head_of this) ;;
  Iterator_incr it.

(** [ConstIterator begin() const noexcept], [cbegin()] *)
Definition begin_const (this : positive) : M NodePtr := get_head this.
Definition cbegin (this : positive) : M NodePtr := get_head this.

(** [ConstIterator end() const noexcept], [cend()] *)
Definition end_const (this : positive) : M NodePtr := ret nullptr.
Definition cend (this : positive) : M NodePtr := end_const this.

(** The member [Node head_] of list object [this] comes to life before
    the body of any constructor runs: its [Type value] is
    default-constructed, which may throw. *)
Definition construct_head_ (this : positive) : M unit :=
  fun m =>
    match Type_ctor (world m) with
    | (w, inl e) => Thrown e (mkMem (heap m) (objs m) (sentinels m) w)
    | (w, inr v) =>
        Normal tt (mkMem (heap m) (objs m) (<[this := v]> (sentinels m)) w)
    end.

(** [head_] goes: the destructor of its [value] runs. *)
Definition destroy_head_ (this : positive) : M unit :=
  fun m =>
    match sentinels m !! this with
    | Some v =>
        Normal tt (mkMem (heap m) (objs m) (delete this (sentinels m))
                         (Type_dtor v (world m)))
    | None => Undefined
    end.

(** The body of a constructor: when it throws, the members that were
    constructed, here [head_], are destroyed and the exception goes
    on. *)
Definition constructor_body (this : positive) (body : M unit) : M unit :=
  fun m =>
    match body m with
    | Thrown e m' => (destroy_head_ this ;;; throw e) m'
    | r => r
    end.

(** [SingleLinkedList() { head_.next_node = nullptr; size_ = 0; }] *)
Definition SingleLinkedList_default (this : positive) : M unit :=
  construct_head_ this ;;;
  constructor_body this (write_obj this (mkList nullptr 0)).

Definition GetSize (this : positive) : M Z := get_size this.

Definition IsEmpty (this : positive) : M bool :=
  p <- get_head this ;; ret (bool_decide (p = nullptr)).

(** [head_.next_node = new Node(value, head_.next_node); size_++;] *)
Definition PushFront (this : positive) (v : Type_) : M unit :=
  old <- get_head this ;;
  p <- new_Node v old ;;
  set_head this p ;;;
  s <- get_size this ;;
  set_size this (size_t_wrap (s + 1)).

Definition Clear (fuel : nat) (this : positive) : M unit :=
  while_ fuel
    (fun _ => p <- get_head this ;; ret (negb (bool_decide (p = nullptr))))
    (fun _ =>
       target <- get_head this ;;
       n <- load_next target ;;
       set_head this n ;;;
       delete_Node target ;;;
       s <- get_size this ;;
       set_size this (size_t_wrap (s - 1)))
    tt.

(** [~SingleLinkedList() { Clear(); }], after which the member [head_] is
    destroyed. *)
Definition SingleLinkedList_dtor (fuel : nat) (this : positive) : M unit :=
  Clear fuel this ;;;
  destroy_head_ this.

(** The storage of an object goes away without any destructor running. *)
Definition release (o : positive) : M unit :=
  fun m =>
    Normal tt (mkMem (heap m) (delete o (objs m)) (sentinels m) (world m)).

(** A local variable of list type: constructed where it is declared,
    destroyed when its scope is left, normally or by an exception.  When
    the constructor itself throws, the destructor of the list does not
    run (the constructor has seen to its members). *)
Definition with_local {A} (fuel : nat) (ctor : positive -> M unit)
    (scope : positive -> M A) : M A :=
  fun m =>
    let o := fresh (dom (objs m)) in
    match ctor o m with
    | Normal _ m1 =>
        match scope o m1 with
        | Normal a m2 =>
            (SingleLinkedList_dtor fuel o ;;; release o ;;; ret a) m2
        | Thrown e m2 =>
            (SingleLinkedList_dtor fuel o ;;; release o ;;; throw e) m2
        | Undefined => Undefined
        | OutOfFuel => OutOfFuel
        end
    | Thrown e m1 => (release o ;;; throw e) m1
    | Undefined => Undefined
    | OutOfFuel => OutOfFuel
    end.

(** [*it] on a [std::initializer_list] iterator, an index into the
    backing array; outside the array the read is undefined. *)
Definition initializer_list_deref (values : list Type_) (it : Z) : M Type_ :=
  if (0 <=? it)%Z then
    match values !! Z.to_nat it with
    | Some v => ret v
    | None => undefined
    end
  else undefined.

(** [SingleLinkedList(std::initializer_list<Type> values)].  The sentinel
    starts out with its default member initialiser [next_node = nullptr]
    and the body sets [size_ = 0]; the two are one write here. *)
Definition SingleLinkedList_init_list (fuel : nat) (this : positive)
    (values : list Type_) : M unit :=
  construct_head_ this ;;;
  constructor_body this
    (write_obj this (mkList nullptr 0) ;;;
     do_while fuel
       (fun it =>
          let it := (it - 1)%Z in
          v <- initializer_list_deref values it ;;
          old <- get_head this ;;
          p <- new_Node v old ;;
          set_head this p ;;;
          s <- get_size this ;;
          set_size this (size_t_wrap (s + 1)) ;;;
          ret it)
       (fun it => ret (negb (bool_decide (it = 0%Z))))
       (Z.of_nat (length values)) ;;;
     ret tt).

(** [SingleLinkedList(const SingleLinkedList &other)].  [other] is const,
    so its [begin()] and [end()] are the read-only ones; [tmp] is not, so
    the second loop calls the [end()] that walks the chain. *)
Definition SingleLinkedList_copy (fuel : nat) (this other : positive) : M unit :=
  construct_head_ this ;;;
  constructor_body this
    (write_obj this (mkList nullptr 0) ;;;
     try_catch_std
       (with_local fuel SingleLinkedList_default (fun tmp =>
          other_it <- begin_const other ;;
          while_ fuel
            (fun it => e <- end_const other ;; ret (Iterator_ne it e))
            (fun it => v <- Iterator_deref it ;; PushFront tmp v ;;; Iterator_incr it)
            other_it ;;;
          tmp_it <- begin tmp ;;
          while_ fuel
            (fun it => e <- end_ fuel tmp ;; ret (Iterator_ne it e))
            (fun it => v <- Iterator_deref it ;; PushFront this v ;;; Iterator_incr it)
            tmp_it ;;;
          ret tt))
       (fun e => Clear fuel this ;;; throw e)).

(** [std::swap] on the two members. *)
Definition swap (this other : positive) : M unit :=
  a <- get_head this ;;
  b <- get_head other ;;
  set_head this b ;;;
  set_head other a ;;;
  sa <- get_size this ;;
  sb <- get_size other ;;
  set_size this sb ;;;
  set_size other sa.

(** [SingleLinkedList &operator=(const SingleLinkedList &rhs)] *)
Definition operator_assign (fuel : nat) (this rhs : positive) : M unit :=
  try_catch_std
    (with_local fuel (fun tmp => SingleLinkedList_copy fuel tmp rhs)
       (fun tmp => swap this tmp))
    (fun e => throw e).

(** ** Comparison operators *)

Definition operator_eq (fuel : nat) (lhs rhs : positive) : M bool :=
  sl <- GetSize lhs ;;
  sr <- GetSize rhs ;;
  if negb (sl =? sr)%Z then ret false
  else
    lhs_it <- begin_const lhs ;;
    rhs_it <- begin_const rhs ;;
    r <- loop fuel
           (fun '(lhs_it, rhs_it, result) =>
              e <- end_const lhs ;;
              if Iterator_ne lhs_it e then
                x <- Iterator_deref lhs_it ;;
                y <- Iterator_deref rhs_it ;;
                if Type_ne x y then ret (Break (lhs_it, rhs_it, false))
                else
                  lhs_it' <- Iterator_incr lhs_it ;;
                  rhs_it' <- Iterator_incr rhs_it ;;
                  ret (Continue (lhs_it', rhs_it', result))
              else ret (Break (lhs_it, rhs_it, result)))
           (lhs_it, rhs_it, true) ;;
    ret (snd r).

Definition operator_ne (fuel : nat) (lhs rhs : positive) : M bool :=
  b <- operator_eq fuel lhs rhs ;; ret (negb b).

(** [std::lexicographical_compare(first1, last1, first2, last2)], as the
    standard library defines it: walk both ranges while neither is
    exhausted, the first pair ordered either way decides, and otherwise
    the first range must end strictly before the second. *)
Definition std_lexicographical_compare (fuel : nat)
    (first1 last1 first2 last2 : NodePtr) : M bool :=
  r <- loop fuel
         (fun '(first1, first2, _) =>
            if Iterator_ne first1 last1 && Iterator_ne first2 last2 then
              x <- Iterator_deref first1 ;;
              y <- Iterator_deref first2 ;;
              if Type_lt x y then ret (Break (first1, first2, Some true))
              else if Type_lt y x then ret (Break (first1, first2, Some false))
              else
                first1' <- Iterator_incr first1 ;;
                first2' <- Iterator_incr first2 ;;
                ret (Continue (first1', first2', None))
            else ret (Break (first1, first2, None)))
         (first1, first2, None) ;;
  match r with
  | (_, _, Some b) => ret b
  | (first1, first2, None) =>
      ret (Iterator_eq first1 last1 && Iterator_ne first2 last2)
  end.

Definition operator_lt (fuel : nat) (lhs rhs : positive) : M bool :=
  b1 <- begin_const lhs ;;
  e1 <- end_const lhs ;;
  b2 <- begin_const rhs ;;
  e2 <- end_const rhs ;;
  std_lexicographical_compare fuel b1 e1 b2 e2.

(** [lhs == rhs || lhs < rhs]: the right operand is evaluated only when
    the left one is false. *)
Definition operator_le (fuel : nat) (lhs rhs : positive) : M bool :=
  b <- operator_eq fuel lhs rhs ;;
  if b : bool then ret true else operator_lt fuel lhs rhs.

Definition operator_gt (fuel : nat) (lhs rhs : positive) : M bool :=
  b <- operator_le fuel lhs rhs ;; ret (negb b).

Definition operator_ge (fuel : nat) (lhs rhs : positive) : M bool :=
  b <- operator_gt fuel lhs rhs ;;
  if b : bool then ret true else operator_eq fuel lhs rhs.

(** ** The rest of the iterator and the non-member [swap] *)

(** [BasicIterator operator++(int)]: the iterator moves on and its old
    value is returned.  The result holds the returned iterator first and
    the iterator as it is afterwards second. *)
Definition Iterator_post_incr (it : NodePtr) : M (NodePtr * NodePtr) :=
  let this_prev := it in
  it' <- load_next it ;;
  ret (this_prev, it').

(** [++it] applied [n] times in a row. *)
Fixpoint Iterator_advance (n : nat) (it : NodePtr) : M NodePtr :=
  match n with
  | O => ret it
  | S n' => it' <- Iterator_incr it ;; Iterator_advance n' it'
  end.

(** [template <typename Type> void swap(lhs, rhs) noexcept { lhs.swap(rhs); }] *)
Definition swap_lists (lhs rhs : positive) : M unit := swap lhs rhs.

(** ** Representation predicates *)

(** A chain is described by its cells, the address and the element of each
    node in iteration order. *)
Definition ptr_of (cs : list (positive * Type_)) : NodePtr :=
  match cs with
  | [] => nullptr
  | (a, _) :: _ => heap_node a
  end.

Fixpoint chain (h : gmap positive Node) (cs : list (positive * Type_)) : Prop :=
  match cs with
  | [] => True
  | (a, x) :: rest => h !! a = Some (mkNode x (ptr_of rest)) /\ chain h rest
  end.

(** List object [o] is a valid list made of the cells [cs]: the sentinel
    links to the first cell, the chain ends in null after the last one and
    [size_] counts the cells. *)
Definition owns (m : Mem) (o : positive) (cs : list (positive * Type_)) : Prop :=
  objs m !! o = Some (mkList (ptr_of cs) (Z.of_nat (length cs))) /\
  chain (heap m) cs.

(** Every live node sits inside the address space. *)
Definition heap_ok (m : Mem) : Prop :=
  map_Forall (fun a (_ : Node) => (Z.pos a < 2 ^ SIZE_WIDTH)%Z) (heap m).

(** The heap [h] after the cells [cs] were pushed, last cell first. *)
Fixpoint push_cells (h : gmap positive Node) (cs : list (positive * Type_))
    : gmap positive Node :=
  match cs with
  | [] => h
  | (a, x) :: rest => <[a := mkNode x (ptr_of rest)]> (push_cells h rest)
  end.

(** The heap [h] after the nodes at [l] were deleted, first one first. *)
Fixpoint free_cells (h : gmap positive Node) (l : list positive)
    : gmap positive Node :=
  match l with
  | [] => h
  | a :: l' => free_cells (delete a h) l'
  end.

(** The world after the elements [xs] were destroyed in that order. *)
Definition destroy_all (w : World) (xs : list Type_) : World :=
  foldl (fun w x => Type_dtor x w) w xs.

(** Cells that [new] may have produced on top of heap [h]. *)
Definition fresh_in (h : gmap positive Node) (cs : list (positive * Type_)) : Prop :=
  NoDup cs.*1 /\
  forall a, a ∈ cs.*1 -> h !! a = None /\ (Z.pos a < 2 ^ SIZE_WIDTH)%Z.

(** The memory in which list object [dst] is made of exactly the cells
    [cs], pushed on top of heap [h]. *)
Definition grown (h : gmap positive Node) (os : gmap positive SingleLinkedList)
    (ss : gmap positive Type_)
    (dst : positive) (cs : list (positive * Type_)) (w : World) : Mem :=
  mkMem (push_cells h cs)
        (<[dst := mkList (ptr_of cs) (Z.of_nat (length cs))]> os) ss w.

(** ** The element-level steps of building a chain *)

(** What one [new Node(v, _)] comes to over the free store [h] in world
    [w]: the world afterwards, and the address of the new node or what
    is thrown. *)
Definition new_Node_result (h : gmap positive Node) (v : Type_) (w : World)
    : World * (exception + positive) :=
  let '(w1, oa) := operator_new w in
  match oa with
  | None => (w1, inl bad_alloc)
  | Some a =>
      if bool_decide (h !! a = None) && (Z.pos a <? 2 ^ SIZE_WIDTH)%Z
      then
        let '(w2, r) := Type_copy v w1 in
        match r with
        | Some e => (w2, inl e)
        | None => (w2, inr a)
        end
      else (w1, inl bad_alloc)
  end.

(** The values [vs] pushed in turn in front of the cells [acc], which sit
    on top of the free store [h], up to the first push that fails: the
    cells then, the world then, and what that push throws. *)
Fixpoint push_values (h : gmap positive Node) (vs : list Type_)
    (acc : list (positive * Type_)) (w : World)
    : list (positive * Type_) * World * option exception :=
  match vs with
  | [] => (acc, w, None)
  | v :: vs' =>
      match new_Node_result (push_cells h acc) v w with
      | (w', inl e) => (acc, w', Some e)
      | (w', inr a) => push_values h vs' ((a, v) :: acc) w'
      end
  end.

(** The steps of the copy constructor that can throw, in the order in
    which they run: the element of the sentinel of the new list, the
    element of the sentinel of [tmp], the pushes onto [tmp], the pushes
    onto the new list. *)
Inductive copy_stage : Type :=
  | own_sentinel
  | tmp_sentinel
  | first_pass
  | second_pass.

(** Copying a list with the elements [vs] over the free store [h] in
    world [w]: the first step that fails and what it throws, [None] when
    every step goes through. *)
Definition copy_failure (h : gmap positive Node) (vs : list Type_) (w : World)
    : option (copy_stage * exception) :=
  match Type_ctor w with
  | (_, inl e) => Some (own_sentinel, e)
  | (w1, inr _) =>
      match Type_ctor w1 with
      | (_, inl e) => Some (tmp_sentinel, e)
      | (w2, inr _) =>
          match push_values h vs [] w2 with
          | (_, _, Some e) => Some (first_pass, e)
          | (tcs, w3, None) =>
              match push_values (push_cells h tcs) tcs.*2 [] w3 with
              | (_, _, Some e) => Some (second_pass, e)
              | (_, _, None) => None
              end
          end
      end
  end.

(** ** What the comparisons are specified to compute *)

(** Pairwise equality of two element sequences under the element [!=]. *)
Fixpoint pairwise_equal (xs ys : list Type_) : bool :=
  match xs, ys with
  | [], [] => true
  | x :: xs', y :: ys' => negb (Type_ne x y) && pairwise_equal xs' ys'
  | _, _ => false
  end.

(** What the loop of [std::lexicographical_compare] computes on two
    element sequences. *)
Fixpoint lex_compare (xs ys : list Type_) : bool :=
  match xs, ys with
  | [], [] => false
  | [], _ :: _ => true
  | _ :: _, [] => false
  | x :: xs', y :: ys' =>
      if Type_lt x y then true
      else if Type_lt y x then false
      else lex_compare xs' ys'
  end.

(** Lexicographic order, in words: the two sequences share a prefix after
    which either the left one ends and the right one goes on, or both go on
    and the left element is the smaller one. *)
Definition lex_less (xs ys : list Type_) : Prop :=
  exists p : list Type_,
    (exists y ys', xs = p /\ ys = p ++ y :: ys') \/
    (exists x y xs' ys',
        xs = p ++ x :: xs' /\ ys = p ++ y :: ys' /\ Type_lt x y = true).

End Container.

Arguments Normal {Type_ World A} a m.
Arguments Thrown {Type_ World A} e m.
Arguments Undefined {Type_ World A}.
Arguments OutOfFuel {Type_ World A}.
Arguments Continue {S} s.
Arguments Break {S} s.

#[global] Instance heap_ok_dec {Type_ World : Type} (m : @Mem Type_ World) :
  Decision (heap_ok m).
Proof. unfold heap_ok. apply _. Defined.

End SLL.

(** ** Element types of the test-suite *)

Module Elements.
Import SLL.

(** [int]: copying cannot fail.  The world is the allocator's next free
    address. *)
Definition int_copy (v : Z) (w : positive) : positive * option exception :=
  (w, None).
Definition int_dtor (v : Z) (w : positive) : positive := w.
Definition int_ne (a b : Z) : bool := negb (a =? b)%Z.
Definition int_lt (a b : Z) : bool := (a <? b)%Z.
Definition int_new (w : positive) : positive * option positive :=
  (Pos.succ w, Some w).
(** [Node() = default] leaves the [int] of a sentinel uninitialised; no
    operation of the list reads it, and [0] stands for it. *)
Definition int_ctor (w : positive) : positive * (exception + Z) :=
  (w, inr 0%Z).

(** Two [IntList]s built from initializer lists in an empty memory and
    handed to a comparison operator; [None] when anything but a normal
    result comes out. *)
Definition IntList_compare
    (op : nat -> positive -> positive -> @M Z positive bool)
    (xs ys : list Z) : option bool :=
  let fuel := S (length xs + length ys) in
  match
    bind (SingleLinkedList_init_list int_copy int_dtor int_new int_ctor
            fuel 1 xs) (fun _ =>
    bind (SingleLinkedList_init_list int_copy int_dtor int_new int_ctor
            fuel 2 ys) (fun _ =>
    op fuel 1%positive 2%positive))
      (mkMem ∅ ∅ ∅ 1%positive)
  with
  | Normal b _ => Some b
  | _ => None
  end.

(** [struct ThrowOnCopy { int *countdown_ptr; }]: the pointer is null or
    names one of the counters of the test; the world holds those counters
    and the allocator's next free address. *)
Record ThrowOnCopy : Type := mkThrowOnCopy { countdown_ptr : option nat }.
Record TestWorld : Type := mkTestWorld { counters : list Z; next_free : positive }.

(** The copy constructor: with a counter at zero it throws, otherwise it
    counts down.  [thrown] is what it throws. *)
Definition countdown_copy (thrown : exception) (other : ThrowOnCopy)
    (w : TestWorld) : TestWorld * option exception :=
  match countdown_ptr other with
  | None => (w, None)
  | Some i =>
      match counters w !! i with
      | Some c =>
          if (c =? 0)%Z then (w, Some thrown)
          else (mkTestWorld (<[i := (c - 1)%Z]> (counters w)) (next_free w), None)
      | None => (w, None)
      end
  end.

(** The test's [ThrowOnCopy] throws [std::bad_alloc]. *)
Definition ThrowOnCopy_copy := countdown_copy bad_alloc.

Definition ThrowOnCopy_dtor (v : ThrowOnCopy) (w : TestWorld) : TestWorld := w.
Definition test_new (w : TestWorld) : TestWorld * option positive :=
  (mkTestWorld (counters w) (Pos.succ (next_free w)), Some (next_free w)).

Definition plain : ThrowOnCopy := mkThrowOnCopy None.
Definition counting (i : nat) : ThrowOnCopy := mkThrowOnCopy (Some i).

(** [ThrowOnCopy() = default]: the pointer is null, nothing is thrown. *)
Definition ThrowOnCopy_ctor (w : TestWorld)
    : TestWorld * (exception + ThrowOnCopy) :=
  (w, inr plain).

(** The memory of the safe-assignment test just before [dst_list = src_list]:
    [src_list] (object 1) holds three elements, the second of which counts
    down [copy_counter = 0]; [dst_list] (object 2) holds two, the second of
    which points at [dst_counter = 10]. *)
Definition src_cells : list (positive * ThrowOnCopy) :=
  [(3%positive, plain); (2%positive, counting 0); (1%positive, plain)].
Definition dst_cells : list (positive * ThrowOnCopy) :=
  [(5%positive, plain); (4%positive, counting 1)].
Definition assign_test_mem : @Mem ThrowOnCopy TestWorld :=
  mkMem (push_cells (push_cells ∅ src_cells) dst_cells)
        (<[2%positive := mkList (heap_node 5) 2]>
           (<[1%positive := mkList (heap_node 3) 3]> ∅))
        (<[2%positive := plain]> (<[1%positive := plain]> ∅))
        (mkTestWorld [0%Z; 10%Z] 6).


(** Two [IntList]s side by side: [{1, 2, 3}] (object 1) and
    [{1, 2, 3, 1}] (object 2). *)
Definition int_cells_a : list (positive * Z) :=
  [(3%positive, 1%Z); (2%positive, 2%Z); (1%positive, 3%Z)].
Definition int_cells_b : list (positive * Z) :=
  [(7%positive, 1%Z); (6%positive, 2%Z); (5%positive, 3%Z); (4%positive, 1%Z)].
Definition int_test_mem : @Mem Z positive :=
  mkMem (push_cells (push_cells ∅ int_cells_a) int_cells_b)
        (<[2%positive := mkList (heap_node 7) 4]>
           (<[1%positive := mkList (heap_node 3) 3]> ∅))
        (<[2%positive := 0%Z]> (<[1%positive := 0%Z]> ∅))
        8%positive.

(** [double], as far as [!=] goes: a number, or a NaN, which [!=] tells
    apart from everything, itself included. *)
Inductive double : Type :=
  | number (z : Z)
  | NaN.
Definition double_ne (a b : double) : bool :=
  match a, b with
  | number x, number y => negb (x =? y)%Z
  | _, _ => true
  end.

(** The list [{NaN}] (object 1) of a [SingleLinkedList<double>]. *)
Definition nan_cells : list (positive * double) := [(1%positive, NaN)].
Definition nan_test_mem : @Mem double positive :=
  mkMem (push_cells ∅ nan_cells)
        (<[1%positive := mkList (heap_node 1) 1]> ∅)
        (<[1%positive := number 0]> ∅)
        2%positive.

(** The world of a test whose only counter stands at zero. *)
Definition zero_counter_mem : @Mem ThrowOnCopy TestWorld :=
  mkMem ∅ ∅ ∅ (mkTestWorld [0%Z] 1).

(** What is left of an outcome's memory. *)
Definition memory_of {T W A} (r : @outcome T W A) (d : @Mem T W) : @Mem T W :=
  match r with
  | Normal _ m => m
  | Thrown _ m => m
  | _ => d
  end.

(** An [IntList] memory with one empty list (object 1). *)
Definition empty_list_mem : @Mem Z positive :=
  mkMem ∅ (<[1%positive := mkList nullptr 0]> ∅) (<[1%positive := 0%Z]> ∅)
        1%positive.

(** Memories reached from the test memories by one operation. *)
Definition int_pushed_mem : @Mem Z positive :=
  memory_of (PushFront int_copy int_new 1 5%Z int_test_mem) int_test_mem.
Definition int_copied_mem : @Mem Z positive :=
  memory_of
    (SingleLinkedList_copy int_copy int_dtor int_new int_ctor 4 3 1 int_test_mem)
    int_test_mem.
Definition int_assigned_mem : @Mem Z positive :=
  memory_of
    (operator_assign int_copy int_dtor int_new int_ctor 5 1 2 int_test_mem)
    int_test_mem.
Definition copy_failed_mem : @Mem ThrowOnCopy TestWorld :=
  memory_of
    (SingleLinkedList_copy ThrowOnCopy_copy ThrowOnCopy_dtor test_new
       ThrowOnCopy_ctor 4 3 1 assign_test_mem)
    assign_test_mem.
Definition assign_failed_mem : @Mem ThrowOnCopy TestWorld :=
  memory_of
    (operator_assign ThrowOnCopy_copy ThrowOnCopy_dtor test_new
       ThrowOnCopy_ctor 4 2 1 assign_test_mem)
    assign_test_mem.

End Elements.
(** * Facts about the container *)

Import SLL.

Section Facts.

Context {Type_ World : Type}.
Variable Type_copy : Type_ -> World -> World * option exception.
Variable Type_dtor : Type_ -> World -> World.
Variable Type_ne : Type_ -> Type_ -> bool.
Variable Type_lt : Type_ -> Type_ -> bool.
Variable operator_new : World -> World * option positive.
Variable Type_ctor : World -> World * (exception + Type_).

Local Abbreviation Node := (@SLL.Node Type_).
Local Abbreviation Mem := (@SLL.Mem Type_ World).
Local Abbreviation M := (@SLL.M Type_ World).
Local Abbreviation cells := (list (positive * Type_)).

Implicit Types (h : gmap positive Node) (cs : cells) (m : Mem).

(** *** Chains *)

Lemma ptr_of_inj cs1 cs2 a x :
  ptr_of cs1 = ptr_of ((a, x) :: cs2) -> exists x' cs1', cs1 = (a, x') :: cs1'.
Proof.
  destruct cs1 as [|[a' x'] cs1']; simpl; [discriminate|].
  intros [= ->]. eauto.
Qed.

Lemma chain_functional h cs1 :
  forall cs2, chain h cs1 -> chain h cs2 -> ptr_of cs1 = ptr_of cs2 -> cs1 = cs2.
Proof.
  induction cs1 as [|[a x] r1 IH]; intros [|[a' x'] r2]; simpl; try done.
  intros [H1 C1] [H2 C2] [= <-].
  rewrite H1 in H2. injection H2 as <- Hp.
  f_equal. by apply IH.
Qed.

Lemma chain_app_r h cs1 cs2 : chain h (cs1 ++ cs2) -> chain h cs2.
Proof.
  induction cs1 as [|[a x] r IH]; simpl; [done|]. intros [_ ?]. auto.
Qed.

Lemma chain_NoDup h cs : chain h cs -> NoDup cs.*1.
Proof.
  induction cs as [|[a x] rest IH]; simpl; [constructor|].
  intros [Ha Hrest]. constructor; [|by apply IH].
  intros Hin.
  apply list_elem_of_fmap in Hin as [[a' x'] [Heq Hin]]. simpl in Heq. subst a'.
  apply list_elem_of_split in Hin as (l1 & l2 & ->).
  pose proof (chain_app_r _ _ _ Hrest) as Hsuf.
  assert (Heq : (a, x) :: l1 ++ (a, x') :: l2 = (a, x') :: l2).
  { apply (chain_functional h); simpl; auto. }
  apply (f_equal length) in Heq. simpl in Heq. rewrite length_app in Heq.
  simpl in Heq. lia.
Qed.

Lemma chain_lookup h cs a :
  chain h cs -> a ∈ cs.*1 -> is_Some (h !! a).
Proof.
  induction cs as [|[a' x] rest IH]; simpl.
  - intros _ Hin. by apply elem_of_nil in Hin.
  - intros [Ha Hrest] Hin. apply elem_of_cons in Hin as [->|Hin]; eauto.
Qed.

Lemma chain_agree h h' cs :
  chain h cs -> (forall a, a ∈ cs.*1 -> h' !! a = h !! a) -> chain h' cs.
Proof.
  induction cs as [|[a x] rest IH]; simpl; [done|].
  intros [Ha Hrest] Hag. split.
  - rewrite Hag; [done|]. apply elem_of_cons; auto.
  - apply IH; [done|]. intros b Hb. apply Hag. apply elem_of_cons; auto.
Qed.

(** *** The address space bounds the length of a chain *)

Lemma bounded_NoDup_length (l : list positive) (n : nat) :
  NoDup l -> (forall a, a ∈ l -> (Pos.to_nat a <= n)%nat) -> (length l <= n)%nat.
Proof.
  intros Hnd Hb.
  assert (Hsub : l ⊆+ (Pos.of_nat <$> seq 1 n)).
  { apply NoDup_submseteq; [done|]. intros a Ha.
    apply list_elem_of_fmap. exists (Pos.to_nat a). split.
    - by rewrite Pos2Nat.id.
    - apply elem_of_seq. specialize (Hb a Ha). lia. }
  apply submseteq_length in Hsub.
  by rewrite length_fmap, length_seq in Hsub.
Qed.

Lemma address_space_length (l : list positive) :
  NoDup l -> (forall a, a ∈ l -> (Z.pos a < 2 ^ SIZE_WIDTH)%Z) ->
  (Z.of_nat (length l) < 2 ^ SIZE_WIDTH)%Z.
Proof.
  intros Hnd Hb.
  assert (H : (length l <= Z.to_nat (2 ^ SIZE_WIDTH - 1))%nat).
  { apply bounded_NoDup_length; [done|]. intros a Ha. specialize (Hb a Ha).
    apply Nat2Z.inj_le. rewrite positive_nat_Z, Z2Nat.id; [lia|].
    unfold SIZE_WIDTH. lia. }
  apply Nat2Z.inj_le in H. rewrite Z2Nat.id in H; [lia|].
  unfold SIZE_WIDTH. lia.
Qed.

Lemma size_t_wrap_small z : (0 <= z < 2 ^ SIZE_WIDTH)%Z -> size_t_wrap z = z.
Proof. intros. unfold size_t_wrap. by apply Z.mod_small. Qed.


(** *** Heaps built by [push_cells] and [free_cells] *)

Lemma lookup_push_cells_notin h cs a :
  a ∉ cs.*1 -> push_cells h cs !! a = h !! a.
Proof.
  induction cs as [|[a' x] rest IH]; simpl; [done|].
  intros Hn. apply not_elem_of_cons in Hn as [Hne Hn].
  rewrite lookup_insert_ne; auto.
Qed.

Lemma lookup_push_cells_in h h' cs a :
  a ∈ cs.*1 -> push_cells h cs !! a = push_cells h' cs !! a.
Proof.
  induction cs as [|[a' x] rest IH]; simpl.
  - intros Hin. by apply elem_of_nil in Hin.
  - intros Hin. destruct (decide (a' = a)) as [->|Hne].
    + by rewrite !lookup_insert_eq.
    + rewrite !lookup_insert_ne by done.
      apply elem_of_cons in Hin as [->|Hin]; [done|]. auto.
Qed.

Lemma lookup_push_cells_None h cs a :
  push_cells h cs !! a = None -> (a ∉ cs.*1) /\ h !! a = None.
Proof.
  induction cs as [|[a' x] rest IH]; simpl.
  - intros. split; [apply not_elem_of_nil|done].
  - intros Hl. destruct (decide (a' = a)) as [->|Hne].
    + by rewrite lookup_insert_eq in Hl.
    + rewrite lookup_insert_ne in Hl by done.
      destruct (IH Hl). split; [|done].
      apply not_elem_of_cons. auto.
Qed.

Lemma lookup_free_cells l : forall h a,
  free_cells h l !! a = if decide (a ∈ l) then None else h !! a.
Proof.
  induction l as [|b l IH]; intros h a; simpl.
  - destruct (decide (a ∈ [])) as [Hin|]; [|done]. by apply elem_of_nil in Hin.
  - rewrite IH. destruct (decide (a ∈ l)) as [Hin|Hn].
    + rewrite decide_True; [done|]. apply elem_of_cons; auto.
    + destruct (decide (b = a)) as [->|Hne].
      * rewrite lookup_delete_eq. rewrite decide_True; [done|].
        apply elem_of_cons; auto.
      * rewrite lookup_delete_ne by done. rewrite decide_False; [done|].
        apply not_elem_of_cons. auto.
Qed.

Lemma chain_push_cells h cs : NoDup cs.*1 -> chain (push_cells h cs) cs.
Proof.
  induction cs as [|[a x] rest IH]; simpl; [done|].
  intros Hnd. apply NoDup_cons in Hnd as [Hn Hnd]. split.
  - apply lookup_insert_eq.
  - apply (chain_agree (push_cells h rest)); [auto|].
    intros b Hb. apply lookup_insert_ne. intros ->. done.
Qed.

Lemma fresh_in_nil h : fresh_in h [].
Proof.
  split; simpl; [constructor|]. intros a Ha. by apply elem_of_nil in Ha.
Qed.

Lemma fresh_in_disjoint h cs cs' a :
  fresh_in h cs -> chain h cs' -> a ∈ cs'.*1 -> a ∉ cs.*1.
Proof.
  intros [_ Hf] Hc Ha Hin.
  destruct (chain_lookup _ _ _ Hc Ha) as [n Hn].
  destruct (Hf a Hin) as [Hnone _]. congruence.
Qed.

Lemma chain_push_frame h cs cs' :
  chain h cs' -> fresh_in h cs -> chain (push_cells h cs) cs'.
Proof.
  intros Hc Hf. apply (chain_agree h); [done|].
  intros a Ha. apply lookup_push_cells_notin.
  by apply (fresh_in_disjoint h cs cs').
Qed.

Lemma free_push_cells h cs :
  fresh_in h cs -> free_cells (push_cells h cs) cs.*1 = h.
Proof.
  intros [_ Hf]. apply map_eq. intros a. rewrite lookup_free_cells.
  destruct (decide (a ∈ cs.*1)) as [Hin|Hn].
  - symmetry. by apply Hf.
  - by apply lookup_push_cells_notin.
Qed.

Lemma fresh_in_length h cs :
  fresh_in h cs -> (Z.of_nat (length cs) < 2 ^ SIZE_WIDTH)%Z.
Proof.
  intros [Hnd Hf]. rewrite <- (length_fmap fst).
  apply address_space_length; [done|]. intros a Ha. by apply Hf.
Qed.

Lemma fresh_in_push h cs cs' :
  fresh_in h cs -> fresh_in (push_cells h cs) cs' ->
  fresh_in h cs' /\ (forall a, a ∈ cs'.*1 -> a ∉ cs.*1).
Proof.
  intros Hf [Hnd Hf']. split; [split; [done|]|].
  - intros a Ha. destruct (Hf' a Ha) as [Hl Hb].
    apply lookup_push_cells_None in Hl as [_ Hl]. done.
  - intros a Ha. destruct (Hf' a Ha) as [Hl _].
    by apply lookup_push_cells_None in Hl as [Hn _].
Qed.

Lemma owns_length m o cs :
  heap_ok m -> owns m o cs -> (Z.of_nat (length cs) < 2 ^ SIZE_WIDTH)%Z.
Proof.
  intros Hok [_ Hc]. rewrite <- (length_fmap fst).
  apply address_space_length; [by apply (chain_NoDup (heap m))|].
  intros a Ha. destruct (chain_lookup _ _ _ Hc Ha) as [n Hn]. by apply (Hok a n).
Qed.


(** *** Running the primitive accesses *)

Local Abbreviation PushFront := (SLL.PushFront Type_copy operator_new).
Local Abbreviation new_Node := (SLL.new_Node Type_copy operator_new).
Local Abbreviation Clear := (SLL.Clear Type_dtor).
Local Abbreviation delete_Node := (SLL.delete_Node Type_dtor).

Lemma bind_Normal {A B} (c : M A) (k : A -> M B) m a m' :
  c m = Normal a m' -> bind c k m = k a m'.
Proof. unfold bind. by intros ->. Qed.

Lemma bind_Thrown {A B} (c : M A) (k : A -> M B) m e m' :
  c m = Thrown e m' -> bind c k m = Thrown e m'.
Proof. unfold bind. by intros ->. Qed.

Lemma bind_assoc {A B C} (c : M A) (k1 : A -> M B) (k2 : B -> M C) m :
  bind (bind c k1) k2 m = bind c (fun a => bind (k1 a) k2) m.
Proof. unfold bind. by destruct (c m). Qed.

Lemma bind_congr {A B} (c1 c2 : M A) (k : A -> M B) m :
  c1 m = c2 m -> bind c1 k m = bind c2 k m.
Proof. unfold bind. by intros ->. Qed.

Lemma bind_ret {A B} (a : A) (k : A -> M B) m : bind (ret a) k m = k a m.
Proof. reflexivity. Qed.

Ltac mnorm := cbv beta; rewrite ?bind_assoc, ?bind_ret; cbv beta.
Ltac mstep H := mnorm; rewrite (bind_Normal _ _ _ _ _ H); mnorm.

Lemma loop_step {S} fuel (body : S -> M (step S)) s :
  loop (Datatypes.S fuel) body s =
  bind (body s) (fun r => match r with
                          | Continue s' => loop fuel body s'
                          | Break s' => ret s'
                          end).
Proof. reflexivity. Qed.

Lemma get_head_eq m o l :
  objs m !! o = Some l -> get_head o m = Normal (head_next_node l) m.
Proof. intros H. unfold get_head, bind, read_obj. by rewrite H. Qed.

Lemma get_size_eq m o l :
  objs m !! o = Some l -> get_size o m = Normal (size_ l) m.
Proof. intros H. unfold get_size, bind, read_obj. by rewrite H. Qed.

Lemma set_head_eq m o l p :
  objs m !! o = Some l ->
  set_head o p m =
  Normal tt (mkMem (heap m) (<[o := mkList p (size_ l)]> (objs m))
                   (sentinels m) (world m)).
Proof. intros H. unfold set_head, bind, read_obj. by rewrite H. Qed.

Lemma set_size_eq m o l n :
  objs m !! o = Some l ->
  set_size o n m =
  Normal tt (mkMem (heap m) (<[o := mkList (head_next_node l) n]> (objs m))
                   (sentinels m) (world m)).
Proof. intros H. unfold set_size, bind, read_obj. by rewrite H. Qed.

Lemma load_next_heap m a n :
  heap m !! a = Some n -> load_next (heap_node a) m = Normal (next_node n) m.
Proof. intros H. simpl. by rewrite H. Qed.

Lemma load_value_heap m a n :
  heap m !! a = Some n -> load_value (heap_node a) m = Normal (value n) m.
Proof. intros H. simpl. by rewrite H. Qed.

Lemma Iterator_incr_heap m a n :
  heap m !! a = Some n -> Iterator_incr (heap_node a) m = Normal (next_node n) m.
Proof. apply load_next_heap. Qed.

Lemma Iterator_deref_heap m a n :
  heap m !! a = Some n -> Iterator_deref (heap_node a) m = Normal (value n) m.
Proof. apply load_value_heap. Qed.

(** *** [new Node] and [PushFront] *)

Local Abbreviation new_Node_result :=
  (SLL.new_Node_result Type_copy operator_new).
Local Abbreviation push_values := (SLL.push_values Type_copy operator_new).

Lemma new_Node_eq m v next :
  new_Node v next m =
  match new_Node_result (heap m) v (world m) with
  | (w, inr a) =>
      Normal (heap_node a)
        (mkMem (<[a := mkNode v next]> (heap m)) (objs m) (sentinels m) w)
  | (w, inl e) => Thrown e (mkMem (heap m) (objs m) (sentinels m) w)
  end.
Proof.
  unfold SLL.new_Node, SLL.new_Node_result.
  destruct (operator_new (world m)) as [w1 [a|]]; [|done].
  destruct (bool_decide _ && _); [|done].
  by destruct (Type_copy v w1) as [w2 [e|]].
Qed.

Lemma new_Node_result_free h v w w' a :
  new_Node_result h v w = (w', inr a) ->
  h !! a = None /\ (Z.pos a < 2 ^ SIZE_WIDTH)%Z.
Proof.
  unfold SLL.new_Node_result.
  destruct (operator_new w) as [w1 [a'|]]; [|done].
  destruct (bool_decide (h !! a' = None) && (Z.pos a' <? 2 ^ SIZE_WIDTH)%Z)
    eqn:Hchk; [|done].
  apply andb_prop in Hchk as [Hfree Hlt].
  apply bool_decide_eq_true in Hfree. apply Z.ltb_lt in Hlt.
  destruct (Type_copy v w1) as [w2 [e|]]; [done|].
  intros [= <- <-]. done.
Qed.

Lemma new_Node_cases m v next :
  (exists a w,
      new_Node v next m =
      Normal (heap_node a)
        (mkMem (<[a := mkNode v next]> (heap m)) (objs m) (sentinels m) w) /\
      heap m !! a = None /\ (Z.pos a < 2 ^ SIZE_WIDTH)%Z) \/
  (exists e w,
      new_Node v next m = Thrown e (mkMem (heap m) (objs m) (sentinels m) w)).
Proof.
  rewrite new_Node_eq.
  destruct (new_Node_result (heap m) v (world m)) as [w [e|a]] eqn:Hres.
  - right. eauto.
  - left. exists a, w. split; [done|]. exact (new_Node_result_free _ _ _ _ _ Hres).
Qed.

Lemma PushFront_eq m o l v :
  objs m !! o = Some l ->
  PushFront o v m =
  match new_Node_result (heap m) v (world m) with
  | (w, inr a) =>
      Normal tt
        (mkMem (<[a := mkNode v (head_next_node l)]> (heap m))
               (<[o := mkList (heap_node a) (size_t_wrap (size_ l + 1))]> (objs m))
               (sentinels m) w)
  | (w, inl e) => Thrown e (mkMem (heap m) (objs m) (sentinels m) w)
  end.
Proof.
  intros Ho. unfold SLL.PushFront.
  rewrite (bind_Normal _ _ _ _ _ (get_head_eq _ _ _ Ho)).
  unfold bind at 1. rewrite new_Node_eq.
  destruct (new_Node_result (heap m) v (world m)) as [w [e|a]]; [done|].
  erewrite bind_Normal; [|by apply set_head_eq].
  erewrite bind_Normal; [|apply get_size_eq; simpl; apply lookup_insert_eq].
  erewrite set_size_eq; [|simpl; apply lookup_insert_eq].
  simpl. by rewrite !insert_insert_eq.
Qed.

Lemma PushFront_cases m o l v :
  objs m !! o = Some l ->
  (exists a w,
      PushFront o v m =
      Normal tt (mkMem (<[a := mkNode v (head_next_node l)]> (heap m))
                       (<[o := mkList (heap_node a) (size_t_wrap (size_ l + 1))]> (objs m))
                       (sentinels m) w) /\
      heap m !! a = None /\ (Z.pos a < 2 ^ SIZE_WIDTH)%Z) \/
  (exists e w,
      PushFront o v m = Thrown e (mkMem (heap m) (objs m) (sentinels m) w)).
Proof.
  intros Ho. rewrite (PushFront_eq m o l v Ho).
  destruct (new_Node_result (heap m) v (world m)) as [w [e|a]] eqn:Hres.
  - right. eauto.
  - left. exists a, w. split; [done|]. exact (new_Node_result_free _ _ _ _ _ Hres).
Qed.

Lemma new_Node_result_fresh_in h cs v w w' a :
  fresh_in h cs ->
  new_Node_result (push_cells h cs) v w = (w', inr a) ->
  fresh_in h ((a, v) :: cs).
Proof.
  intros [Hnd Hf] Hres.
  apply new_Node_result_free in Hres as [Hfree Hlt].
  apply lookup_push_cells_None in Hfree as [Hn Hfree].
  split; simpl.
  - by constructor.
  - intros b Hb. apply elem_of_cons in Hb as [->|Hb]; auto.
Qed.

(** [PushFront] on a list that is being built. *)
Lemma PushFront_grown h os ss dst cs w v :
  fresh_in h cs ->
  PushFront dst v (grown h os ss dst cs w) =
  match new_Node_result (push_cells h cs) v w with
  | (w', inr a) => Normal tt (grown h os ss dst ((a, v) :: cs) w')
  | (w', inl e) => Thrown e (grown h os ss dst cs w')
  end.
Proof.
  intros Hf.
  rewrite (PushFront_eq (grown h os ss dst cs w) dst _ v (lookup_insert_eq _ _ _)).
  simpl heap. simpl world.
  destruct (new_Node_result (push_cells h cs) v w) as [w' [e|a]] eqn:Hres;
    [done|].
  pose proof (new_Node_result_fresh_in _ _ _ _ _ _ Hf Hres) as Hf'.
  assert (Hsz : size_t_wrap (Z.of_nat (length cs) + 1)
                = Z.of_nat (length ((a, v) :: cs))).
  { apply fresh_in_length in Hf'. simpl length in *.
    rewrite size_t_wrap_small; lia. }
  unfold grown. simpl objs. simpl head_next_node. simpl size_. simpl sentinels.
  rewrite insert_insert_eq, Hsz. reflexivity.
Qed.

Lemma PushFront_grown_cases h os ss dst cs w v :
  fresh_in h cs ->
  (exists a w',
      PushFront dst v (grown h os ss dst cs w) =
      Normal tt (grown h os ss dst ((a, v) :: cs) w') /\
      fresh_in h ((a, v) :: cs)) \/
  (exists e w',
      PushFront dst v (grown h os ss dst cs w)
      = Thrown e (grown h os ss dst cs w')).
Proof.
  intros Hf. rewrite (PushFront_grown _ _ _ _ _ _ _ Hf).
  destruct (new_Node_result (push_cells h cs) v w) as [w' [e|a]] eqn:Hres.
  - right. eauto.
  - left. exists a, w'. split; [done|].
    by apply (new_Node_result_fresh_in _ _ _ _ _ _ Hf Hres).
Qed.

(** What [push_values] hands back: the new cells in front of the old
    ones, all of them fresh, holding the values pushed, last one first. *)
Lemma push_values_spec h vs : forall acc w acc' w' r,
  fresh_in h acc -> push_values h vs acc w = (acc', w', r) ->
  exists new,
    acc' = new ++ acc /\ fresh_in h acc' /\
    match r with
    | None => new.*2 = reverse vs
    | Some _ => (length new < length vs)%nat
    end.
Proof.
  induction vs as [|v vs IH]; intros acc w acc' w' r Hf; simpl.
  - intros [= <- <- <-]. by exists [].
  - destruct (new_Node_result (push_cells h acc) v w) as [w1 [e|a]] eqn:Hres.
    + intros [= <- <- <-]. exists []. split; [done|]. split; [done|].
      simpl. lia.
    + intros Hrun.
      destruct (IH _ _ _ _ _ (new_Node_result_fresh_in _ _ _ _ _ _ Hf Hres) Hrun)
        as (new & -> & Hf' & Hr).
      exists (new ++ [(a, v)]). rewrite <- app_assoc. split; [done|].
      split; [done|]. destruct r.
      * rewrite length_app. simpl. lia.
      * rewrite fmap_app, Hr. simpl. by rewrite reverse_cons.
Qed.

(** *** [end()] on a valid list *)

Lemma end_walk fuel m : forall cs p,
  load_next p m = Normal (ptr_of cs) m -> chain (heap m) cs ->
  (length cs < fuel)%nat ->
  exists q,
    while_ fuel
      (fun it => bind (load_next it) (fun n => ret (negb (bool_decide (n = nullptr)))))
      (fun it => Iterator_incr it) p m = Normal q m /\
    load_next q m = Normal nullptr m.
Proof.
  induction fuel as [|fuel IH]; intros cs p Hp Hc Hlen; [lia|].
  unfold while_. rewrite loop_step. cbv beta. rewrite !bind_assoc.
  rewrite (bind_Normal _ _ _ _ _ Hp), bind_ret.
  destruct cs as [|[a x] rest].
  - exists p. split; done.
  - simpl in Hc, Hlen. destruct Hc as [Ha Hc].
    destruct (IH rest (heap_node a)) as (q & Hq & Hnext); [|done|lia|].
    { erewrite load_next_heap; [|done]. done. }
    exists q. split; [|done].
    simpl negb. cbv iota. rewrite !bind_assoc.
    unfold Iterator_incr at 1. rewrite (bind_Normal _ _ _ _ _ Hp), bind_ret.
    exact Hq.
Qed.

Lemma end__spec fuel m o cs sz :
  objs m !! o = Some (mkList (ptr_of cs) sz) -> chain (heap m) cs ->
  (length cs < fuel)%nat ->
  end_ fuel o m = Normal nullptr m.
Proof.
  intros Ho Hc Hlen. unfold end_.
  destruct (end_walk fuel m cs (head_of o)) as (q & Hq & Hnext); try done.
  { simpl. by rewrite (get_head_eq _ _ _ Ho). }
  rewrite (bind_Normal _ _ _ _ _ Hq). exact Hnext.
Qed.


(** *** [Clear] *)

Lemma delete_Node_heap m a n :
  heap m !! a = Some n ->
  delete_Node (heap_node a) m =
  Normal tt (mkMem (delete a (heap m)) (objs m) (sentinels m)
                   (Type_dtor (value n) (world m))).
Proof. intros H. simpl. by rewrite H. Qed.

Lemma Clear_spec o : forall cs fuel m,
  (Z.of_nat (length cs) < 2 ^ SIZE_WIDTH)%Z ->
  owns m o cs -> (length cs < fuel)%nat ->
  Clear fuel o m =
  Normal tt (mkMem (free_cells (heap m) cs.*1)
                   (<[o := mkList nullptr 0]> (objs m))
                   (sentinels m)
                   (destroy_all Type_dtor (world m) cs.*2)).
Proof.
  induction cs as [|[a x] rest IH]; intros fuel m Hb Hown Hlen;
    (destruct fuel as [|fuel]; [simpl in Hlen; lia|]);
    pose proof Hown as [Ho Hc];
    unfold SLL.Clear, while_; rewrite loop_step;
    mstep (get_head_eq _ _ _ Ho).
  - simpl. unfold ret. destruct m as [h os ss w]. simpl in *.
    by rewrite insert_id.
  - simpl in Hc. destruct Hc as [Ha Hc].
    simpl head_next_node. simpl ptr_of.
    rewrite bool_decide_eq_false_2 by done. simpl negb. cbv iota.
    mstep (get_head_eq _ _ _ Ho). simpl head_next_node. simpl ptr_of.
    mstep (load_next_heap _ _ _ Ha). simpl next_node.
    mstep (set_head_eq _ _ _ (ptr_of rest) Ho).
    mnorm. erewrite bind_Normal; [|by apply (delete_Node_heap _ a)].
    mnorm. erewrite bind_Normal; [|apply get_size_eq; simpl; apply lookup_insert_eq].
    mnorm. erewrite bind_Normal; [|apply set_size_eq; simpl; apply lookup_insert_eq].
    mnorm. simpl.
    rewrite insert_insert_eq.
    simpl length in Hb.
    assert (Hsz : size_t_wrap (Z.of_nat (S (length rest)) - 1)
                  = Z.of_nat (length rest)).
    { rewrite size_t_wrap_small; lia. }
    change (Z.pos (Pos.of_succ_nat (length rest)))
      with (Z.of_nat (S (length rest))).
    rewrite Hsz.
    set (m1 := mkMem (delete a (heap m))
                     (<[o := mkList (ptr_of rest) (Z.of_nat (length rest))]> (objs m))
                     (sentinels m) (Type_dtor x (world m))).
    assert (Hown1 : owns m1 o rest).
    { split; simpl; [apply lookup_insert_eq|].
      apply (chain_agree (heap m)); [done|].
      intros b Hb'. apply lookup_delete_ne. intros Heq. subst b.
      pose proof (chain_NoDup (heap m) ((a, x) :: rest)) as Hnd.
      simpl in Hnd. specialize (Hnd (conj Ha Hc)).
      by apply NoDup_cons in Hnd as [? _]. }
    pose proof (IH fuel m1 ltac:(lia) Hown1 ltac:(simpl in Hlen; lia)) as IHm.
    unfold SLL.Clear, while_ in IHm. rewrite IHm. simpl.
    by rewrite insert_insert_eq.
Qed.

(** [Clear] undoes what was pushed onto a list that started empty. *)
Lemma Clear_grown h os ss dst cs w fuel :
  fresh_in h cs -> (length cs < fuel)%nat ->
  Clear fuel dst (grown h os ss dst cs w) =
  Normal tt (grown h os ss dst [] (destroy_all Type_dtor w cs.*2)).
Proof.
  intros Hf Hlen.
  rewrite (Clear_spec dst cs).
  - unfold grown. simpl. by rewrite insert_insert_eq, free_push_cells.
  - by apply (fresh_in_length h).
  - split; simpl; [apply lookup_insert_eq|]. apply chain_push_cells, Hf.
  - done.
Qed.


(** *** The copying loops of the copy constructor *)

Local Abbreviation copy_body dst :=
  (fun it : NodePtr =>
     bind (Iterator_deref it)
       (fun v => bind (PushFront dst v) (fun _ => Iterator_incr it))).

Lemma Iterator_ne_null_heap a : Iterator_ne (heap_node a) nullptr = true.
Proof. reflexivity. Qed.

Lemma copy_loop (cond : NodePtr -> M bool) dst h os ss :
  (forall it cs w, fresh_in h cs ->
     cond it (grown h os ss dst cs w)
     = Normal (Iterator_ne it nullptr) (grown h os ss dst cs w)) ->
  forall rest fuel acc w,
    chain h rest -> fresh_in h acc -> (length rest < fuel)%nat ->
    while_ fuel cond (copy_body dst) (ptr_of rest) (grown h os ss dst acc w) =
    match push_values h rest.*2 acc w with
    | (acc', w', None) => Normal nullptr (grown h os ss dst acc' w')
    | (acc', w', Some e) => Thrown e (grown h os ss dst acc' w')
    end.
Proof.
  intros Hcond.
  induction rest as [|[a x] rest IH]; intros fuel acc w Hc Hf Hlen;
    (destruct fuel as [|fuel]; [simpl in Hlen; lia|]);
    unfold while_; rewrite loop_step; mnorm;
    erewrite (bind_Normal _ _ _ _ _ (Hcond _ acc w Hf)); mnorm.
  - done.
  - simpl ptr_of. rewrite Iterator_ne_null_heap. cbv iota.
    simpl in Hc. destruct Hc as [Ha Hc].
    assert (Hframe : forall (cs' : cells) (w' : World), fresh_in h cs' ->
               heap (grown h os ss dst cs' w') !! a
               = Some (mkNode x (ptr_of rest))).
    { intros cs' w' Hf'. simpl. rewrite lookup_push_cells_notin; [done|].
      intros Hin. destruct Hf' as [_ Hf']. destruct (Hf' a Hin). congruence. }
    mstep (Iterator_deref_heap _ _ _ (Hframe acc w Hf)). simpl value.
    unfold bind at 1. rewrite (PushFront_grown h os ss dst acc w x Hf).
    simpl fmap. simpl SLL.push_values.
    destruct (new_Node_result (push_cells h acc) x w) as [w' [e|a']] eqn:Hres;
      [done|].
    pose proof (new_Node_result_fresh_in _ _ _ _ _ _ Hf Hres) as Hf'.
    mstep (Iterator_incr_heap _ _ _ (Hframe _ w' Hf')). simpl next_node.
    apply (IH fuel ((a', x) :: acc) w' Hc Hf'). simpl in Hlen. lia.
Qed.

Lemma free_push_push h tcs ncs :
  fresh_in h tcs -> fresh_in (push_cells h tcs) ncs ->
  free_cells (push_cells (push_cells h tcs) ncs) tcs.*1 = push_cells h ncs.
Proof.
  intros Hft Hfn. destruct (fresh_in_push _ _ _ Hft Hfn) as [Hfn' Hdisj].
  apply map_eq. intros a. rewrite lookup_free_cells.
  destruct (decide (a ∈ tcs.*1)) as [Hin|Hn].
  - rewrite lookup_push_cells_notin.
    + symmetry. by apply Hft.
    + intros Hin'. by apply (Hdisj a).
  - destruct (decide (a ∈ ncs.*1)) as [Hin'|Hn'].
    + by apply lookup_push_cells_in.
    + by rewrite !lookup_push_cells_notin.
Qed.


(** *** The copy constructor *)

Local Abbreviation with_local := (SLL.with_local Type_dtor).
Local Abbreviation SingleLinkedList_copy :=
  (SLL.SingleLinkedList_copy Type_copy Type_dtor operator_new Type_ctor).
Local Abbreviation L cs := (mkList (ptr_of cs) (Z.of_nat (length cs))).

(** The body of the [try] block, once [tmp] exists. *)
Local Abbreviation copy_scope fuel this other :=
  (fun tmp : positive =>
     bind (begin_const other) (fun other_it =>
     bind (while_ fuel
             (fun it => bind (end_const other) (fun e => ret (Iterator_ne it e)))
             (copy_body tmp) other_it) (fun _ =>
     bind (begin tmp) (fun tmp_it =>
     bind (while_ fuel
             (fun it => bind (end_ fuel tmp) (fun e => ret (Iterator_ne it e)))
             (copy_body this) tmp_it) (fun _ =>
     ret tt))))).

Ltac map_solve :=
  apply map_eq; intros ?;
  repeat (rewrite ?lookup_insert, ?lookup_delete;
          repeat case_decide; simplify_eq; try done; try congruence).

(** *** The sentinel's element *)

Lemma destroy_head__eq this (m : Mem) v :
  sentinels m !! this = Some v ->
  destroy_head_ Type_dtor this m
  = Normal tt (mkMem (heap m) (objs m) (delete this (sentinels m))
                     (Type_dtor v (world m))).
Proof. intros H. unfold destroy_head_. by rewrite H. Qed.

Lemma construct_head__bind {A} this (k : M A) (m : Mem) :
  bind (construct_head_ Type_ctor this) (fun _ => k) m =
  match Type_ctor (world m) with
  | (w, inl e) => Thrown e (mkMem (heap m) (objs m) (sentinels m) w)
  | (w, inr v) =>
      k (mkMem (heap m) (objs m) (<[this := v]> (sentinels m)) w)
  end.
Proof.
  unfold bind, construct_head_. by destruct (Type_ctor (world m)) as [w [e|v]].
Qed.

Lemma constructor_body_Normal this (body : M unit) m m1 :
  body m = Normal tt m1 ->
  constructor_body Type_dtor this body m = Normal tt m1.
Proof. intros H. unfold constructor_body. by rewrite H. Qed.

Lemma constructor_body_Thrown this (body : M unit) m e m1 v :
  body m = Thrown e m1 -> sentinels m1 !! this = Some v ->
  constructor_body Type_dtor this body m
  = Thrown e (mkMem (heap m1) (objs m1) (delete this (sentinels m1))
                    (Type_dtor v (world m1))).
Proof.
  intros H Hv. unfold constructor_body. rewrite H.
  unfold bind. by rewrite (destroy_head__eq _ _ _ Hv).
Qed.

Lemma SingleLinkedList_default_eq o (m : Mem) :
  SingleLinkedList_default Type_dtor Type_ctor o m =
  match Type_ctor (world m) with
  | (w, inl e) => Thrown e (mkMem (heap m) (objs m) (sentinels m) w)
  | (w, inr v) =>
      Normal tt (grown (heap m) (objs m) (<[o := v]> (sentinels m)) o [] w)
  end.
Proof.
  unfold SingleLinkedList_default, bind, construct_head_.
  by destruct (Type_ctor (world m)) as [w [e|v]].
Qed.

Lemma copy_scope_eq fuel this other tmp h os ss w cs :
  os !! this = Some (mkList nullptr 0) ->
  os !! other = Some (L cs) ->
  tmp <> this -> tmp <> other ->
  chain h cs -> (length cs < fuel)%nat ->
  copy_scope fuel this other tmp (grown h os ss tmp [] w) =
  match push_values h cs.*2 [] w with
  | (tcs, w1, Some e) =>
      Thrown e (grown (push_cells h tcs) (<[tmp := L tcs]> os) ss this [] w1)
  | (tcs, w1, None) =>
      match push_values (push_cells h tcs) tcs.*2 [] w1 with
      | (ncs, w2, None) =>
          Normal tt
            (grown (push_cells h tcs) (<[tmp := L tcs]> os) ss this ncs w2)
      | (ncs, w2, Some e) =>
          Thrown e
            (grown (push_cells h tcs) (<[tmp := L tcs]> os) ss this ncs w2)
      end
  end.
Proof.
  intros Hthis Hother Hnt Hno Hc Hlen. cbv beta.
  assert (Hb : begin_const other (grown h os ss tmp [] w)
               = Normal (ptr_of cs) (grown h os ss tmp [] w)).
  { apply (get_head_eq _ _ (L cs)). simpl. by rewrite lookup_insert_ne. }
  pose proof (copy_loop
                (fun it => bind (end_const other) (fun e => ret (Iterator_ne it e)))
                tmp h os ss ltac:(done) cs fuel [] w Hc (fresh_in_nil h) Hlen)
    as Hl1.
  destruct (push_values h cs.*2 [] w) as [[tcs w1] r1] eqn:Hp1.
  destruct (push_values_spec _ _ _ _ _ _ _ (fresh_in_nil h) Hp1)
    as (new & Heq & Hft & Hr1).
  rewrite app_nil_r in Heq. subst new.
  assert (Hnil : forall w' : World, grown h os ss tmp tcs w'
                 = grown (push_cells h tcs) (<[tmp := L tcs]> os) ss this [] w').
  { intros w'. unfold grown. simpl. f_equal. symmetry. apply insert_id.
    by rewrite lookup_insert_ne. }
  destruct r1 as [e|].
  { mstep Hb. rewrite (bind_Thrown _ _ _ _ _ Hl1). by rewrite Hnil. }
  assert (Hlt : length tcs = length cs).
  { apply (f_equal length) in Hr1.
    by rewrite length_reverse, !length_fmap in Hr1. }
  set (h1 := push_cells h tcs) in *.
  set (os1 := <[tmp := L tcs]> os) in *.
  assert (Hc1 : chain h1 tcs) by (apply chain_push_cells, Hft).
  assert (Hcond2 : forall it (cs' : list (positive * Type_)) (w' : World),
             fresh_in h1 cs' ->
             bind (end_ fuel tmp) (fun e => ret (Iterator_ne it e))
               (grown h1 os1 ss this cs' w')
             = Normal (Iterator_ne it nullptr) (grown h1 os1 ss this cs' w')).
  { intros it cs' w' Hf'.
    erewrite bind_Normal; [done|].
    apply (end__spec fuel _ tmp tcs (Z.of_nat (length tcs))).
    - simpl. rewrite lookup_insert_ne by done. apply lookup_insert_eq.
    - simpl. by apply chain_push_frame.
    - lia. }
  pose proof (copy_loop
                (fun it => bind (end_ fuel tmp) (fun e => ret (Iterator_ne it e)))
                this h1 os1 ss Hcond2 tcs fuel [] w1 Hc1 (fresh_in_nil h1)
                ltac:(lia))
    as Hl2.
  assert (Hbt : begin tmp (grown h os ss tmp tcs w1)
                = Normal (ptr_of tcs) (grown h os ss tmp tcs w1)).
  { apply (get_head_eq _ _ (L tcs)). simpl. apply lookup_insert_eq. }
  mstep Hb. mstep Hl1. mstep Hbt. rewrite Hnil.
  destruct (push_values h1 tcs.*2 [] w1) as [[ncs w2] [e|]].
  - by rewrite (bind_Thrown _ _ _ _ _ Hl2).
  - by mstep Hl2.
Qed.

Lemma with_local_eq {A} fuel ctor (scope : positive -> M A) m m1 :
  ctor (fresh (dom (objs m))) m = Normal tt m1 ->
  with_local fuel ctor scope m =
  match scope (fresh (dom (objs m))) m1 with
  | Normal a m2 =>
      bind (SingleLinkedList_dtor Type_dtor fuel (fresh (dom (objs m))))
        (fun _ => bind (release (fresh (dom (objs m)))) (fun _ => ret a)) m2
  | Thrown e m2 =>
      bind (SingleLinkedList_dtor Type_dtor fuel (fresh (dom (objs m))))
        (fun _ => bind (release (fresh (dom (objs m)))) (fun _ => throw e)) m2
  | Undefined => Undefined
  | OutOfFuel => OutOfFuel
  end.
Proof. unfold SLL.with_local. by intros ->. Qed.

Lemma with_local_ctor_Thrown {A} fuel ctor (scope : positive -> M A) m e m1 :
  ctor (fresh (dom (objs m))) m = Thrown e m1 ->
  with_local fuel ctor scope m
  = bind (release (fresh (dom (objs m)))) (fun _ => throw e) m1.
Proof. unfold SLL.with_local. by intros ->. Qed.

(** Leaving the scope of [tmp] in the copy constructor: its nodes go
    back to the allocator, the element of its sentinel is destroyed and
    its storage is released. *)
Lemma copy_cleanup {A} fuel this tmp h os ss l0 vt tcs ncs w (k : M A) :
  fresh_in h tcs -> fresh_in (push_cells h tcs) ncs ->
  (length tcs < fuel)%nat -> os !! tmp = None -> tmp <> this ->
  ss !! tmp = Some vt ->
  bind (SingleLinkedList_dtor Type_dtor fuel tmp)
    (fun _ => bind (release tmp) (fun _ => k))
    (grown (push_cells h tcs) (<[tmp := L tcs]> (<[this := l0]> os)) ss
           this ncs w)
  = k (grown h os (delete tmp ss) this ncs
         (Type_dtor vt (destroy_all Type_dtor w tcs.*2))).
Proof.
  intros Hft Hfn Hlen Htmp Hne Hvt.
  unfold SingleLinkedList_dtor. rewrite bind_assoc.
  erewrite bind_Normal; cycle 1.
  { apply (Clear_spec tmp tcs).
    - by apply (fresh_in_length h).
    - split; simpl.
      + rewrite lookup_insert_ne by done. apply lookup_insert_eq.
      + apply chain_push_frame; [|done]. apply chain_push_cells, Hft.
    - done. }
  erewrite bind_Normal; [|by apply (destroy_head__eq _ _ vt)].
  unfold bind, release. simpl. f_equal. unfold grown. f_equal.
  - by apply free_push_push.
  - map_solve.
Qed.

(** The [try] block of the copy constructor and its handler, from the
    point where the list under construction is empty. *)
Lemma copy_try_eq fuel this other h os ss w cs :
  this <> other -> os !! other = Some (L cs) -> chain h cs ->
  (length cs < fuel)%nat ->
  let tmp := fresh (dom (<[this := mkList nullptr 0]> os)) in
  try_catch_std
    (with_local fuel (SingleLinkedList_default Type_dtor Type_ctor)
       (copy_scope fuel this other))
    (fun e => bind (Clear fuel this) (fun _ => throw e))
    (grown h os ss this [] w)
  =
  match Type_ctor w with
  | (w2, inl e) => Thrown e (grown h os ss this [] w2)
  | (w2, inr vt) =>
      match push_values h cs.*2 [] w2 with
      | (tcs, w3, Some e) =>
          Thrown e (grown h os (delete tmp ss) this []
                      (Type_dtor vt (destroy_all Type_dtor w3 tcs.*2)))
      | (tcs, w3, None) =>
          match push_values (push_cells h tcs) tcs.*2 [] w3 with
          | (ncs, w4, None) =>
              Normal tt (grown h os (delete tmp ss) this ncs
                           (Type_dtor vt (destroy_all Type_dtor w4 tcs.*2)))
          | (ncs, w4, Some e) =>
              if is_std_exception e then
                Thrown e
                  (grown h os (delete tmp ss) this []
                     (destroy_all Type_dtor
                        (Type_dtor vt (destroy_all Type_dtor w4 tcs.*2))
                        ncs.*2))
              else
                Thrown e
                  (grown h os (delete tmp ss) this ncs
                     (Type_dtor vt (destroy_all Type_dtor w4 tcs.*2)))
          end
      end
  end.
Proof.
  intros Hne Ho Hc Hlen tmp.
  set (ma := grown h os ss this [] w).
  assert (Htmp : objs ma !! tmp = None) by apply not_elem_of_dom, is_fresh.
  assert (Hnt : tmp <> this).
  { intros Heq. rewrite Heq in Htmp. simpl in Htmp.
    by rewrite lookup_insert_eq in Htmp. }
  assert (Htmp' : os !! tmp = None).
  { simpl in Htmp. by rewrite lookup_insert_ne in Htmp. }
  assert (Hno : tmp <> other) by congruence.
  assert (Hfuel : (0 < fuel)%nat) by lia.
  unfold try_catch_std.
  pose proof (SingleLinkedList_default_eq tmp ma) as Hdef.
  simpl world in Hdef.
  destruct (Type_ctor w) as [w2 [e|vt]].
  { rewrite (with_local_ctor_Thrown fuel _ _ ma _ _ Hdef). fold tmp.
    unfold bind at 1, release, throw. simpl objs. simpl heap. simpl sentinels.
    simpl world. rewrite delete_id by done.
    change (mkMem h (<[this := mkList nullptr 0]> os) ss w2)
      with (grown h os ss this [] w2).
    destruct (is_std_exception e); [|done].
    by rewrite (bind_Normal _ _ _ _ _
                  (Clear_grown h os ss this [] w2 fuel (fresh_in_nil h) Hfuel)). }
  rewrite (with_local_eq fuel _ _ ma _ Hdef). fold tmp.
  simpl heap. simpl objs. simpl sentinels.
  change (grown h (<[this := mkList (ptr_of []) (Z.of_nat (length []))]> os)
            (<[tmp := vt]> ss) tmp [] w2)
    with (grown h (objs ma) (<[tmp := vt]> ss) tmp [] w2).
  rewrite (copy_scope_eq fuel this other tmp h (objs ma) (<[tmp := vt]> ss) w2 cs);
    [|simpl; apply lookup_insert_eq|simpl; by rewrite lookup_insert_ne
     |done|done|done|done].
  destruct (push_values h cs.*2 [] w2) as [[tcs w3] r1] eqn:Hp1.
  destruct (push_values_spec _ _ _ _ _ _ _ (fresh_in_nil h) Hp1)
    as (new & Heq & Hft & Hr1).
  rewrite app_nil_r in Heq. subst new.
  assert (Hsent : forall vt', delete tmp (<[tmp := vt']> ss) = delete tmp ss).
  { intros vt'. map_solve. }
  destruct r1 as [e|].
  { assert (Hlt : (length tcs < fuel)%nat).
    { rewrite length_fmap in Hr1. lia. }
    unfold ma at 1. simpl objs.
    rewrite (copy_cleanup fuel this tmp h os _ _ vt tcs [] w3);
      [|done|apply fresh_in_nil|done|done|done|apply lookup_insert_eq].
    rewrite Hsent. unfold throw.
    destruct (is_std_exception e); [|done].
    by rewrite (bind_Normal _ _ _ _ _
                  (Clear_grown h os _ this [] _ fuel (fresh_in_nil h) Hfuel)). }
  assert (Hlt : length tcs = length cs).
  { apply (f_equal length) in Hr1.
    by rewrite length_reverse, !length_fmap in Hr1. }
  destruct (push_values (push_cells h tcs) tcs.*2 [] w3) as [[ncs w4] r2] eqn:Hp2.
  destruct (push_values_spec _ _ _ _ _ _ _ (fresh_in_nil _) Hp2)
    as (new & Heq & Hfn & Hr2).
  rewrite app_nil_r in Heq. subst new.
  destruct (fresh_in_push _ _ _ Hft Hfn) as [Hfn' _].
  destruct r2 as [e|]; unfold ma at 1; simpl objs;
    (rewrite (copy_cleanup fuel this tmp h os _ _ vt tcs ncs w4);
     [|done|done|lia|done|done|apply lookup_insert_eq]);
    rewrite Hsent; [|done].
  unfold throw.
  destruct (is_std_exception e); [|done].
  assert (Hln : (length ncs < fuel)%nat).
  { rewrite length_fmap in Hr2. lia. }
  by rewrite (bind_Normal _ _ _ _ _
                (Clear_grown h os _ this ncs _ fuel Hfn' Hln)).
Qed.

(** What the copy constructor comes to, step by step: the element of the
    sentinel, the element of the sentinel of [tmp], the pass that fills
    [tmp] and the pass that fills the new list; the first step that
    fails decides what is thrown and what is left. *)
Lemma SingleLinkedList_copy_eq fuel this other m cs :
  this <> other -> owns m other cs -> (length cs < fuel)%nat ->
  let tmp := fresh (dom (<[this := mkList nullptr 0]> (objs m))) in
  SingleLinkedList_copy fuel this other m =
  match Type_ctor (world m) with
  | (w1, inl e) => Thrown e (mkMem (heap m) (objs m) (sentinels m) w1)
  | (w1, inr v) =>
      match Type_ctor w1 with
      | (w2, inl e) =>
          Thrown e (grown (heap m) (objs m) (delete this (sentinels m)) this []
                      (Type_dtor v w2))
      | (w2, inr vt) =>
          match push_values (heap m) cs.*2 [] w2 with
          | (tcs, w3, Some e) =>
              Thrown e
                (grown (heap m) (objs m)
                   (delete this (delete tmp (sentinels m))) this []
                   (Type_dtor v
                      (Type_dtor vt (destroy_all Type_dtor w3 tcs.*2))))
          | (tcs, w3, None) =>
              match push_values (push_cells (heap m) tcs) tcs.*2 [] w3 with
              | (ncs, w4, None) =>
                  Normal tt
                    (grown (heap m) (objs m)
                       (delete tmp (<[this := v]> (sentinels m))) this ncs
                       (Type_dtor vt (destroy_all Type_dtor w4 tcs.*2)))
              | (ncs, w4, Some e) =>
                  if is_std_exception e then
                    Thrown e
                      (grown (heap m) (objs m)
                         (delete this (delete tmp (sentinels m))) this []
                         (Type_dtor v
                            (destroy_all Type_dtor
                               (Type_dtor vt (destroy_all Type_dtor w4 tcs.*2))
                               ncs.*2)))
                  else
                    Thrown e
                      (grown (heap m) (objs m)
                         (delete this (delete tmp (sentinels m))) this ncs
                         (Type_dtor v
                            (Type_dtor vt (destroy_all Type_dtor w4 tcs.*2))))
              end
          end
      end
  end.
Proof.
  intros Hne [Ho Hc] Hlen tmp.
  unfold SLL.SingleLinkedList_copy.
  rewrite construct_head__bind.
  destruct (Type_ctor (world m)) as [w1 [e|v]]; [done|].
  set (ss1 := <[this := v]> (sentinels m)).
  set (body := bind (write_obj this (mkList nullptr 0)) _).
  assert (Hbody : body (mkMem (heap m) (objs m) ss1 w1)
                  = try_catch_std
                      (with_local fuel (SingleLinkedList_default Type_dtor Type_ctor)
                         (copy_scope fuel this other))
                      (fun e => bind (Clear fuel this) (fun _ => throw e))
                      (grown (heap m) (objs m) ss1 this [] w1)) by reflexivity.
  rewrite (copy_try_eq fuel this other (heap m) (objs m) ss1 w1 cs)
    in Hbody by (done || by rewrite lookup_insert_ne).
  fold tmp in Hbody.
  assert (Hs1 : delete this (delete tmp ss1)
                = delete this (delete tmp (sentinels m))).
  { unfold ss1. map_solve. }
  assert (Hs2 : delete this ss1 = delete this (sentinels m)).
  { unfold ss1. map_solve. }
  assert (Hnt : tmp <> this).
  { intros Heq.
    pose proof (is_fresh (dom (<[this := mkList nullptr 0]> (objs m)))) as Hfr.
    fold tmp in Hfr. rewrite Heq in Hfr. apply Hfr.
    apply elem_of_dom. rewrite lookup_insert_eq. eauto. }
  assert (Hv : delete tmp ss1 !! this = Some v).
  { rewrite lookup_delete_ne by done. apply lookup_insert_eq. }
  destruct (Type_ctor w1) as [w2 [e|vt]].
  { rewrite (constructor_body_Thrown _ _ _ _ _ v Hbody)
      by apply lookup_insert_eq.
    simpl. by rewrite Hs2. }
  destruct (push_values (heap m) cs.*2 [] w2) as [[tcs w3] [e|]].
  { rewrite (constructor_body_Thrown _ _ _ _ _ v Hbody) by apply Hv.
    simpl. by rewrite Hs1. }
  destruct (push_values (push_cells (heap m) tcs) tcs.*2 [] w3)
    as [[ncs w4] [e|]].
  2:{ by rewrite (constructor_body_Normal _ _ _ _ Hbody). }
  destruct (is_std_exception e);
    rewrite (constructor_body_Thrown _ _ _ _ _ v Hbody) by apply Hv;
    simpl; by rewrite Hs1.
Qed.

(** The same, without the steps: a list of fresh nodes with the elements
    of the source, or an exception. *)
Lemma SingleLinkedList_copy_spec fuel this other m cs :
  this <> other -> owns m other cs -> (length cs < fuel)%nat ->
  exists ncs ss w,
    fresh_in (heap m) ncs /\
    ((SingleLinkedList_copy fuel this other m
      = Normal tt (grown (heap m) (objs m) ss this ncs w) /\ ncs.*2 = cs.*2 /\
      is_Some (ss !! this)) \/
     (exists e,
         SingleLinkedList_copy fuel this other m
         = Thrown e (grown (heap m) (objs m) ss this ncs w) /\
         (is_std_exception e = true -> ncs = [])) \/
     (exists e,
         SingleLinkedList_copy fuel this other m
         = Thrown e (mkMem (heap m) (objs m) ss w))).
Proof.
  intros Hne Hown Hlen.
  rewrite (SingleLinkedList_copy_eq fuel this other m cs Hne Hown Hlen).
  cbv zeta.
  set (tmp := fresh (dom (<[this := mkList nullptr 0]> (objs m)))).
  destruct (Type_ctor (world m)) as [w1 [e|v]].
  { exists [], (sentinels m), w1. split; [apply fresh_in_nil|].
    right. right. eauto. }
  destruct (Type_ctor w1) as [w2 [e|vt]].
  { eexists [], _, _. split; [apply fresh_in_nil|]. right. left. eauto. }
  destruct (push_values (heap m) cs.*2 [] w2) as [[tcs w3] r1] eqn:Hp1.
  destruct (push_values_spec _ _ _ _ _ _ _ (fresh_in_nil _) Hp1)
    as (new & Heq & Hft & Hr1).
  rewrite app_nil_r in Heq. subst new.
  destruct r1 as [e|].
  { eexists [], _, _. split; [apply fresh_in_nil|]. right. left. eauto. }
  destruct (push_values (push_cells (heap m) tcs) tcs.*2 [] w3)
    as [[ncs w4] r2] eqn:Hp2.
  destruct (push_values_spec _ _ _ _ _ _ _ (fresh_in_nil _) Hp2)
    as (new & Heq & Hfn & Hr2).
  rewrite app_nil_r in Heq. subst new.
  destruct (fresh_in_push _ _ _ Hft Hfn) as [Hfn' _].
  destruct r2 as [e|].
  - destruct (is_std_exception e) eqn:Hstd.
    + eexists [], _, _. split; [apply fresh_in_nil|]. right. left. eauto.
    + eexists ncs, _, _. split; [done|]. right. left. exists e.
      split; [done|]. by rewrite Hstd.
  - eexists ncs, _, _. split; [done|]. left. split; [done|].
    split; [by rewrite Hr2, Hr1, reverse_involutive|].
    exists v. rewrite lookup_delete_ne; [apply lookup_insert_eq|].
    intros Heq.
    pose proof (is_fresh (dom (<[this := mkList nullptr 0]> (objs m)))) as Hfr.
    fold tmp in Hfr. rewrite Heq in Hfr. apply Hfr.
    apply elem_of_dom. rewrite lookup_insert_eq. eauto.
Qed.


Local Abbreviation copy_failure :=
  (SLL.copy_failure Type_copy operator_new Type_ctor).

(** The outcome of the copy constructor, told by the first step that
    fails. *)
Lemma copy_by_failure fuel this other m cs :
  this <> other -> owns m other cs -> (length cs < fuel)%nat ->
  match copy_failure (heap m) cs.*2 (world m) with
  | None =>
      exists ncs ss w,
        fresh_in (heap m) ncs /\ ncs.*2 = cs.*2 /\ is_Some (ss !! this) /\
        SingleLinkedList_copy fuel this other m
        = Normal tt (grown (heap m) (objs m) ss this ncs w)
  | Some (own_sentinel, e) =>
      exists w,
        SingleLinkedList_copy fuel this other m
        = Thrown e (mkMem (heap m) (objs m) (sentinels m) w)
  | Some (second_pass, e) =>
      exists ncs ss w,
        fresh_in (heap m) ncs /\ (is_std_exception e = true -> ncs = []) /\
        SingleLinkedList_copy fuel this other m
        = Thrown e (grown (heap m) (objs m) ss this ncs w)
  | Some (_, e) =>
      exists ss w,
        SingleLinkedList_copy fuel this other m
        = Thrown e (grown (heap m) (objs m) ss this [] w)
  end.
Proof.
  intros Hne Hown Hlen.
  rewrite (SingleLinkedList_copy_eq fuel this other m cs Hne Hown Hlen).
  cbv zeta. unfold SLL.copy_failure.
  set (tmp := fresh (dom (<[this := mkList nullptr 0]> (objs m)))).
  destruct (Type_ctor (world m)) as [w1 [e|v]]; [eauto|].
  destruct (Type_ctor w1) as [w2 [e|vt]]; [eauto|].
  destruct (push_values (heap m) cs.*2 [] w2) as [[tcs w3] r1] eqn:Hp1.
  destruct (push_values_spec _ _ _ _ _ _ _ (fresh_in_nil _) Hp1)
    as (new & Heq & Hft & Hr1).
  rewrite app_nil_r in Heq. subst new.
  destruct r1 as [e|]; [eauto|].
  destruct (push_values (push_cells (heap m) tcs) tcs.*2 [] w3)
    as [[ncs w4] r2] eqn:Hp2.
  destruct (push_values_spec _ _ _ _ _ _ _ (fresh_in_nil _) Hp2)
    as (new & Heq & Hfn & Hr2).
  rewrite app_nil_r in Heq. subst new.
  destruct (fresh_in_push _ _ _ Hft Hfn) as [Hfn' _].
  destruct r2 as [e|].
  - destruct (is_std_exception e) eqn:Hstd.
    + eexists [], _, _. split; [apply fresh_in_nil|]. split; done.
    + eexists ncs, _, _. split; [done|]. split; done.
  - eexists ncs, _, _. split; [done|].
    split; [by rewrite Hr2, Hr1, reverse_involutive|]. split; [|done].
    exists v. rewrite lookup_delete_ne; [apply lookup_insert_eq|].
    intros Heq.
    pose proof (is_fresh (dom (<[this := mkList nullptr 0]> (objs m)))) as Hfr.
    fold tmp in Hfr. rewrite Heq in Hfr. apply Hfr.
    apply elem_of_dom. rewrite lookup_insert_eq. eauto.
Qed.

(** *** [swap] and copy assignment *)

Lemma swap_spec m a b la lb :
  objs m !! a = Some la -> objs m !! b = Some lb ->
  swap a b m =
  Normal tt (mkMem (heap m) (<[b := la]> (<[a := lb]> (objs m)))
                   (sentinels m) (world m)).
Proof.
  intros Ha Hb. unfold swap.
  mstep (get_head_eq _ _ _ Ha). mstep (get_head_eq _ _ _ Hb).
  mstep (set_head_eq _ _ _ (head_next_node lb) Ha).
  destruct (decide (a = b)) as [->|Hne].
  - assert (la = lb) by congruence. subst lb. destruct la as [p n].
    unfold set_head, get_size, set_size, bind, read_obj, write_obj, ret. simpl.
    repeat (rewrite lookup_insert_eq; simpl).
    by rewrite !insert_insert_eq.
  - unfold set_head, get_size, set_size, bind, read_obj, write_obj, ret. simpl.
    destruct la as [pa na], lb as [pb nb]. simpl.
    repeat (rewrite ?lookup_insert_eq, ?Ha, ?Hb;
            rewrite ?lookup_insert_ne by done; simpl).
    do 2 f_equal. map_solve.
Qed.

Local Abbreviation operator_assign :=
  (SLL.operator_assign Type_copy Type_dtor operator_new Type_ctor).

(** The assignment follows the copy into [tmp]: when the copy returns,
    the records are swapped and [tmp] takes the old chain away; when the
    copy throws, so does the assignment, at once. *)
Lemma operator_assign_of_copy fuel this rhs m csD :
  heap_ok m -> owns m this csD -> (length csD < fuel)%nat ->
  let tmp := fresh (dom (objs m)) in
  (forall ncs ss (w : World) v,
      fresh_in (heap m) ncs -> ss !! tmp = Some v ->
      SingleLinkedList_copy fuel tmp rhs m
      = Normal tt (grown (heap m) (objs m) ss tmp ncs w) ->
      operator_assign fuel this rhs m
      = Normal tt (mkMem (free_cells (push_cells (heap m) ncs) csD.*1)
                         (<[this := L ncs]> (objs m)) (delete tmp ss)
                         (Type_dtor v (destroy_all Type_dtor w csD.*2)))) /\
  (forall e m1,
      SingleLinkedList_copy fuel tmp rhs m = Thrown e m1 ->
      operator_assign fuel this rhs m
      = Thrown e (mkMem (heap m1) (delete tmp (objs m1)) (sentinels m1)
                        (world m1))).
Proof.
  intros Hok HD HlD tmp. pose proof HD as [HoD HcD].
  assert (Htmp : objs m !! tmp = None) by apply not_elem_of_dom, is_fresh.
  assert (Hnt : tmp <> this) by congruence.
  unfold SLL.operator_assign, try_catch_std. split.
  - intros ncs ss w v Hfn Hv Hcopy.
    rewrite (with_local_eq fuel _ _ m _ Hcopy). fold tmp.
    erewrite (swap_spec _ this tmp (L csD) (L ncs)); cycle 1.
    { simpl. by rewrite lookup_insert_ne. }
    { simpl. apply lookup_insert_eq. }
    unfold SingleLinkedList_dtor. rewrite bind_assoc.
    erewrite bind_Normal; cycle 1.
    { apply (Clear_spec tmp csD).
      - by apply (owns_length m this).
      - split; simpl; [apply lookup_insert_eq|]. by apply chain_push_frame.
      - done. }
    erewrite bind_Normal; [|by apply (destroy_head__eq _ _ v)].
    unfold bind, release, ret. simpl. do 2 f_equal. map_solve.
  - intros e m1 Hcopy.
    rewrite (with_local_ctor_Thrown fuel _ _ m _ _ Hcopy). fold tmp.
    unfold bind, release, throw. by destruct (is_std_exception e).
Qed.

Lemma operator_assign_spec fuel this rhs m csD csS :
  heap_ok m -> owns m this csD -> owns m rhs csS ->
  (length csD < fuel)%nat -> (length csS < fuel)%nat ->
  exists ncs ss w,
    fresh_in (heap m) ncs /\
    ((operator_assign fuel this rhs m
      = Normal tt (mkMem (free_cells (push_cells (heap m) ncs) csD.*1)
                         (<[this := L ncs]> (objs m)) ss w) /\
      ncs.*2 = csS.*2) \/
     (exists e,
         operator_assign fuel this rhs m
         = Thrown e (mkMem (push_cells (heap m) ncs) (objs m) ss w) /\
         (is_std_exception e = true -> ncs = []))).
Proof.
  intros Hok HD HS HlD HlS.
  pose proof HD as [HoD HcD]. pose proof HS as [HoS HcS].
  destruct (operator_assign_of_copy fuel this rhs m csD Hok HD HlD)
    as [Hnormal Hthrown].
  set (tmp := fresh (dom (objs m))) in *.
  assert (Htmp : objs m !! tmp = None) by apply not_elem_of_dom, is_fresh.
  assert (Hnr : tmp <> rhs) by congruence.
  destruct (SingleLinkedList_copy_spec fuel tmp rhs m csS Hnr HS HlS)
    as (ncs & ss & w & Hfn &
        [(Hcopy & Hv & [v Hsv])|[(e & Hcopy & Hstd)|(e & Hcopy)]]).
  - eexists ncs, _, _. split; [done|]. left. split; [|done].
    by apply (Hnormal ncs ss w v).
  - eexists ncs, _, _. split; [done|]. right. exists e. split; [|done].
    rewrite (Hthrown _ _ Hcopy). simpl.
    by rewrite delete_insert_id.
  - eexists [], _, _. split; [apply fresh_in_nil|]. right. exists e.
    split; [|done].
    rewrite (Hthrown _ _ Hcopy). simpl. by rewrite delete_id.
Qed.


(** *** Comparisons *)

Local Abbreviation operator_eq := (SLL.operator_eq (World:=World) Type_ne).
Local Abbreviation operator_ne := (SLL.operator_ne (World:=World) Type_ne).
Local Abbreviation operator_lt := (SLL.operator_lt (World:=World) Type_lt).
Local Abbreviation operator_le := (SLL.operator_le (World:=World) Type_ne Type_lt).
Local Abbreviation operator_gt := (SLL.operator_gt (World:=World) Type_ne Type_lt).
Local Abbreviation operator_ge := (SLL.operator_ge (World:=World) Type_ne Type_lt).
Local Abbreviation pairwise_equal := (SLL.pairwise_equal Type_ne).
Local Abbreviation lex_compare := (SLL.lex_compare Type_lt).
Local Abbreviation lex_less := (SLL.lex_less Type_lt).

Lemma pairwise_equal_length xs ys :
  pairwise_equal xs ys = true -> length xs = length ys.
Proof.
  revert ys. induction xs as [|x xs IH]; intros [|y ys]; simpl; try done.
  intros H. apply andb_prop in H as [_ H]. f_equal. auto.
Qed.

Lemma eq_loop m lhs : forall cl cr fuel,
  chain (heap m) cl -> chain (heap m) cr -> length cl = length cr ->
  (length cl < fuel)%nat ->
  exists p q,
    loop fuel
      (fun '(lhs_it, rhs_it, result) =>
         bind (end_const lhs) (fun e =>
         if Iterator_ne lhs_it e then
           bind (Iterator_deref lhs_it) (fun x =>
           bind (Iterator_deref rhs_it) (fun y =>
           if Type_ne x y then ret (Break (lhs_it, rhs_it, false))
           else
             bind (Iterator_incr lhs_it) (fun lhs_it' =>
             bind (Iterator_incr rhs_it) (fun rhs_it' =>
             ret (Continue (lhs_it', rhs_it', result))))))
         else ret (Break (lhs_it, rhs_it, result))))
      (ptr_of cl, ptr_of cr, true) m
    = Normal (p, q, pairwise_equal cl.*2 cr.*2) m.
Proof.
  induction cl as [|[a x] cl IH]; intros [|[b y] cr] fuel Hl Hr Hlen Hf;
    simpl in Hlen; try discriminate;
    (destruct fuel as [|fuel]; [simpl in Hf; lia|]);
    rewrite loop_step; cbv beta iota; unfold end_const at 1; mnorm.
  - do 2 eexists. reflexivity.
  - simpl ptr_of. rewrite Iterator_ne_null_heap. cbv iota.
    simpl in Hl, Hr. destruct Hl as [Ha Hl], Hr as [Hb Hr].
    mstep (Iterator_deref_heap _ _ _ Ha). mstep (Iterator_deref_heap _ _ _ Hb).
    simpl value.
    destruct (Type_ne x y) eqn:Hne.
    + do 2 eexists. simpl. rewrite Hne. reflexivity.
    + mstep (Iterator_incr_heap _ _ _ Ha). mstep (Iterator_incr_heap _ _ _ Hb).
      simpl next_node.
      destruct (IH cr fuel Hl Hr ltac:(lia) ltac:(simpl in Hf; lia))
        as (p & q & Hloop).
      exists p, q. rewrite Hloop. simpl. rewrite Hne. done.
Qed.


Lemma operator_eq_spec fuel lhs rhs m cl cr :
  owns m lhs cl -> owns m rhs cr -> (length cl < fuel)%nat ->
  operator_eq fuel lhs rhs m = Normal (pairwise_equal cl.*2 cr.*2) m.
Proof.
  intros [Hol Hcl] [Hor Hcr] Hf. unfold SLL.operator_eq, GetSize.
  mstep (get_size_eq _ _ _ Hol). mstep (get_size_eq _ _ _ Hor). cbn [size_].
  destruct (decide (length cl = length cr)) as [Heq|Hne].
  - rewrite Heq, Z.eqb_refl. cbn [negb]. cbv iota. unfold begin_const.
    mstep (get_head_eq _ _ _ Hol). mstep (get_head_eq _ _ _ Hor).
    simpl head_next_node.
    destruct (eq_loop m lhs cl cr fuel Hcl Hcr Heq Hf) as (p & q & Hloop).
    mstep Hloop. done.
  - assert (Hz : (Z.of_nat (length cl) =? Z.of_nat (length cr))%Z = false).
    { apply Z.eqb_neq. lia. }
    rewrite Hz. cbn [negb]. cbv iota.
    destruct (pairwise_equal cl.*2 cr.*2) eqn:Hp; [|done].
    apply pairwise_equal_length in Hp. rewrite !length_fmap in Hp. done.
Qed.

Lemma lex_loop m : forall cl cr fuel,
  chain (heap m) cl -> chain (heap m) cr -> (length cl < fuel)%nat ->
  std_lexicographical_compare Type_lt fuel (ptr_of cl) nullptr (ptr_of cr) nullptr m
  = Normal (lex_compare cl.*2 cr.*2) m.
Proof.
  unfold SLL.std_lexicographical_compare.
  induction cl as [|[a x] cl IH]; intros [|[b y] cr] fuel Hl Hr Hf;
    (destruct fuel as [|fuel]; [simpl in Hf; lia|]);
    rewrite loop_step; cbv beta iota; try (mnorm; reflexivity).
  simpl ptr_of. rewrite !Iterator_ne_null_heap. simpl andb. cbv iota.
  simpl in Hl, Hr. destruct Hl as [Ha Hl], Hr as [Hb Hr].
  mstep (Iterator_deref_heap _ _ _ Ha). mstep (Iterator_deref_heap _ _ _ Hb).
  simpl value. simpl. 
  destruct (Type_lt x y); [reflexivity|].
  destruct (Type_lt y x); [reflexivity|].
  mstep (Iterator_incr_heap _ _ _ Ha). mstep (Iterator_incr_heap _ _ _ Hb).
  simpl next_node.
  exact (IH cr fuel Hl Hr ltac:(simpl in Hf; lia)).
Qed.

Lemma operator_lt_spec fuel lhs rhs m cl cr :
  owns m lhs cl -> owns m rhs cr -> (length cl < fuel)%nat ->
  operator_lt fuel lhs rhs m = Normal (lex_compare cl.*2 cr.*2) m.
Proof.
  intros [Hol Hcl] [Hor Hcr] Hf. unfold SLL.operator_lt, begin_const, end_const.
  mstep (get_head_eq _ _ _ Hol). mstep (get_head_eq _ _ _ Hor).
  by apply lex_loop.
Qed.

Lemma operator_le_spec fuel lhs rhs m cl cr :
  owns m lhs cl -> owns m rhs cr -> (length cl < fuel)%nat ->
  operator_le fuel lhs rhs m
  = Normal (pairwise_equal cl.*2 cr.*2 || lex_compare cl.*2 cr.*2) m.
Proof.
  intros Hl Hr Hf. unfold SLL.operator_le.
  mstep (operator_eq_spec fuel lhs rhs m cl cr Hl Hr Hf).
  destruct (pairwise_equal cl.*2 cr.*2); [done|].
  by apply operator_lt_spec.
Qed.

Lemma operator_gt_spec fuel lhs rhs m cl cr :
  owns m lhs cl -> owns m rhs cr -> (length cl < fuel)%nat ->
  operator_gt fuel lhs rhs m
  = Normal (negb (pairwise_equal cl.*2 cr.*2 || lex_compare cl.*2 cr.*2)) m.
Proof.
  intros Hl Hr Hf. unfold SLL.operator_gt.
  by mstep (operator_le_spec fuel lhs rhs m cl cr Hl Hr Hf).
Qed.

Lemma operator_ge_spec fuel lhs rhs m cl cr :
  owns m lhs cl -> owns m rhs cr -> (length cl < fuel)%nat ->
  operator_ge fuel lhs rhs m
  = Normal (negb (pairwise_equal cl.*2 cr.*2 || lex_compare cl.*2 cr.*2)
            || pairwise_equal cl.*2 cr.*2) m.
Proof.
  intros Hl Hr Hf. unfold SLL.operator_ge.
  mstep (operator_gt_spec fuel lhs rhs m cl cr Hl Hr Hf).
  destruct (negb _); [done|].
  by apply operator_eq_spec.
Qed.

(** The loop of [lexicographical_compare] decides the lexicographic order
    when the element [<] is irreflexive and any two elements it does not
    order are equal. *)
Lemma lex_compare_less xs ys :
  (forall x y, Type_lt x y = false -> Type_lt y x = false -> x = y) ->
  lex_compare xs ys = true -> lex_less xs ys.
Proof.
  intros Htri. revert ys.
  induction xs as [|x xs IH]; intros [|y ys]; simpl; try done.
  - intros _. exists []. left. eauto.
  - destruct (Type_lt x y) eqn:Hxy.
    + intros _. exists []. right. exists x, y, xs, ys. done.
    + destruct (Type_lt y x) eqn:Hyx; [done|].
      intros H. assert (x = y) as <- by auto.
      destruct (IH ys H) as [p Hp]. exists (x :: p).
      destruct Hp as [(y' & ys' & -> & ->)|(x' & y' & xs' & ys' & -> & -> & Hlt)].
      * left. eauto.
      * right. exists x', y', xs', ys'. done.
Qed.

Lemma lex_less_compare xs ys :
  (forall x, Type_lt x x = false) ->
  lex_less xs ys -> lex_compare xs ys = true.
Proof.
  intros Hirr [p Hp]. revert xs ys Hp.
  induction p as [|z p IH]; intros xs ys Hp.
  - destruct Hp as [(y & ys' & -> & ->)|(x & y & xs' & ys' & -> & -> & Hlt)].
    + done.
    + simpl. by rewrite Hlt.
  - destruct Hp as [(y & ys' & -> & ->)|(x & y & xs' & ys' & -> & -> & Hlt)];
      simpl; rewrite Hirr; apply IH.
    + left. eauto.
    + right. exists x, y, xs', ys'. done.
Qed.


(** *** Construction from an initializer list *)

Local Abbreviation SingleLinkedList_init_list :=
  (SLL.SingleLinkedList_init_list Type_copy Type_dtor operator_new Type_ctor).

Lemma inline_PushFront {A} this v (k : M A) m :
  bind (get_head this) (fun old =>
  bind (new_Node v old) (fun p =>
  bind (set_head this p) (fun _ =>
  bind (get_size this) (fun s =>
  bind (set_size this (size_t_wrap (s + 1))) (fun _ => k))))) m
  = bind (PushFront this v) (fun _ => k) m.
Proof.
  unfold SLL.PushFront, bind.
  destruct (get_head this m); try done.
  destruct (new_Node _ _ _); try done.
  destruct (set_head _ _ _); try done.
  destruct (get_size _ _); try done.
Qed.

Lemma initializer_list_deref_eq (values : list Type_) k v m :
  values !! k = Some v ->
  initializer_list_deref values (Z.of_nat k) m = Normal v m.
Proof.
  intros H. unfold initializer_list_deref.
  assert (Hle : (0 <=? Z.of_nat k)%Z = true) by (apply Z.leb_le; lia).
  by rewrite Hle, Nat2Z.id, H.
Qed.

Lemma init_list_loop this h os ss (values : list Type_) : forall k fuel acc w,
  (k < length values)%nat -> fresh_in h acc -> (k < fuel)%nat ->
  exists new w',
    fresh_in h (new ++ acc) /\
    ((do_while fuel
        (fun it =>
           let it := (it - 1)%Z in
           bind (initializer_list_deref values it) (fun v =>
           bind (get_head this) (fun old =>
           bind (new_Node v old) (fun p =>
           bind (set_head this p) (fun _ =>
           bind (get_size this) (fun s =>
           bind (set_size this (size_t_wrap (s + 1))) (fun _ =>
           ret it)))))))
        (fun it => ret (negb (bool_decide (it = 0%Z))))
        (Z.of_nat (S k)) (grown h os ss this acc w)
      = Normal 0%Z (grown h os ss this (new ++ acc) w') /\
      new.*2 = take (S k) values) \/
     (exists e,
         do_while fuel
           (fun it =>
              let it := (it - 1)%Z in
              bind (initializer_list_deref values it) (fun v =>
              bind (get_head this) (fun old =>
              bind (new_Node v old) (fun p =>
              bind (set_head this p) (fun _ =>
              bind (get_size this) (fun s =>
              bind (set_size this (size_t_wrap (s + 1))) (fun _ =>
              ret it)))))))
           (fun it => ret (negb (bool_decide (it = 0%Z))))
           (Z.of_nat (S k)) (grown h os ss this acc w)
         = Thrown e (grown h os ss this (new ++ acc) w') /\
         (length new <= k)%nat)).
Proof.
  induction k as [|k IH]; intros fuel acc w Hk Hf Hfuel;
    (destruct fuel as [|fuel]; [lia|]);
    destruct (lookup_lt_is_Some_2 values _ Hk) as [v Hv];
    unfold do_while; rewrite loop_step; cbv beta zeta.
  - change (Z.of_nat 1 - 1)%Z with (Z.of_nat 0).
    mnorm.
    rewrite (bind_Normal _ _ _ _ _
               (initializer_list_deref_eq _ _ _ (grown h os ss this acc w) Hv)).
    cbv beta. erewrite bind_congr; [|apply inline_PushFront].
    destruct (PushFront_grown_cases h os ss this acc w v Hf)
      as [(a & w' & Hpush & Hf')|(e & w' & Hpush)].
    + mstep Hpush. exists [(a, v)], w'. split; [done|]. left. split; [done|].
      by rewrite (take_S_r _ _ _ Hv).
    + exists [], w'. split; [done|]. right. exists e. split; [|done].
      mnorm. by rewrite (bind_Thrown _ _ _ _ _ Hpush).
  - replace (Z.of_nat (S (S k)) - 1)%Z with (Z.of_nat (S k)) by lia.
    mnorm.
    rewrite (bind_Normal _ _ _ _ _
               (initializer_list_deref_eq _ _ _ (grown h os ss this acc w) Hv)).
    cbv beta. erewrite bind_congr; [|apply inline_PushFront].
    destruct (PushFront_grown_cases h os ss this acc w v Hf)
      as [(a & w' & Hpush & Hf')|(e & w' & Hpush)].
    + mstep Hpush. rewrite bool_decide_eq_false_2 by lia. cbn [negb]. mnorm.
      destruct (IH fuel ((a, v) :: acc) w' ltac:(lia) Hf' ltac:(lia))
        as (new & w'' & Hf'' & Hres).
      exists (new ++ [(a, v)]), w''. rewrite <- app_assoc. simpl app.
      split; [done|]. unfold do_while in Hres.
      destruct Hres as [[Hres Hval]|(e & Hres & Hl)]; [left|right].
      * split; [done|]. rewrite fmap_app, Hval. simpl.
        by rewrite (take_S_r _ _ _ Hv).
      * exists e. split; [done|]. rewrite length_app. simpl. lia.
    + exists [], w'. split; [done|]. right. exists e. split; [|simpl; lia].
      mnorm. by rewrite (bind_Thrown _ _ _ _ _ Hpush).
Qed.

(** A non-empty initializer list: either every element is copied and the
    list reads back in the order given, or the construction throws. *)
Lemma SingleLinkedList_init_list_spec fuel this (values : list Type_) m :
  values <> [] -> (length values <= fuel)%nat ->
  exists ncs ss w,
    fresh_in (heap m) ncs /\
    ((SingleLinkedList_init_list fuel this values m
      = Normal tt (grown (heap m) (objs m) ss this ncs w) /\ ncs.*2 = values) \/
     (exists e,
         SingleLinkedList_init_list fuel this values m
         = Thrown e (grown (heap m) (objs m) ss this ncs w) /\
         (length ncs < length values)%nat) \/
     (exists e,
         SingleLinkedList_init_list fuel this values m
         = Thrown e (mkMem (heap m) (objs m) ss w))).
Proof.
  intros Hne Hfuel. unfold SLL.SingleLinkedList_init_list.
  rewrite construct_head__bind.
  destruct (Type_ctor (world m)) as [w1 [e|v]].
  { exists [], (sentinels m), w1. split; [apply fresh_in_nil|].
    right. right. by exists e. }
  set (ss1 := <[this := v]> (sentinels m)).
  set (body := bind (write_obj this (mkList nullptr 0)) _).
  set (m1 := mkMem (heap m) (objs m) ss1 w1).
  destruct (length values) as [|k] eqn:Hlen.
  { destruct values; [done|discriminate Hlen]. }
  destruct (init_list_loop this (heap m) (objs m) ss1 values k fuel [] w1)
    as (ncs & w & Hf & Hres); [lia|apply fresh_in_nil|lia|].
  rewrite app_nil_r in Hf, Hres.
  destruct Hres as [[Hres Hval]|(e & Hres & Hl)].
  - exists ncs, ss1, w. split; [done|]. left. split.
    + apply constructor_body_Normal. unfold body.
      mstep (eq_refl : write_obj this (mkList nullptr 0) m1
                       = Normal tt (grown (heap m) (objs m) ss1 this [] w1)).
      by mstep Hres.
    + rewrite Hval. apply take_ge. lia.
  - exists ncs, (delete this ss1), (Type_dtor v w). split; [done|].
    right. left. exists e. split; [|lia].
    assert (Hbody : body m1 = Thrown e (grown (heap m) (objs m) ss1 this ncs w)).
    { unfold body.
      mstep (eq_refl : write_obj this (mkList nullptr 0) m1
                       = Normal tt (grown (heap m) (objs m) ss1 this [] w1)).
      by rewrite (bind_Thrown _ _ _ _ _ Hres). }
    rewrite (constructor_body_Thrown _ _ _ _ _ v Hbody); [done|].
    simpl. apply lookup_insert_eq.
Qed.


(** *** Size and emptiness *)

Lemma GetSize_spec m o cs :
  owns m o cs -> GetSize o m = Normal (Z.of_nat (length cs)) m.
Proof. intros [Ho _]. by apply (get_size_eq _ _ (L cs)). Qed.

Lemma IsEmpty_spec m o cs :
  owns m o cs -> IsEmpty o m = Normal (bool_decide (cs = [])) m.
Proof.
  intros [Ho _]. unfold IsEmpty. mstep (get_head_eq _ _ _ Ho).
  by destruct cs as [|[a x] rest].
Qed.

(** *** The address-space invariant is kept *)

Lemma heap_ok_insert (m : Mem) a n os ss (w : World) :
  heap_ok m -> (Z.pos a < 2 ^ SIZE_WIDTH)%Z ->
  heap_ok (mkMem (<[a := n]> (heap m)) os ss w).
Proof.
  intros Hok Hlt b n' Hb. simpl in Hb.
  destruct (decide (a = b)) as [<-|Hne]; [done|].
  rewrite lookup_insert_ne in Hb by done. by apply (Hok b n').
Qed.

Lemma heap_ok_push_cells (m : Mem) cs os ss (w : World) :
  heap_ok m -> fresh_in (heap m) cs ->
  heap_ok (mkMem (push_cells (heap m) cs) os ss w).
Proof.
  intros Hok [_ Hf] b n Hb. simpl in Hb.
  destruct (decide (b ∈ cs.*1)) as [Hin|Hn].
  - by apply Hf.
  - rewrite lookup_push_cells_notin in Hb by done. by apply (Hok b n).
Qed.

Lemma heap_ok_free_cells (m : Mem) l os ss (w : World) :
  heap_ok m -> heap_ok (mkMem (free_cells (heap m) l) os ss w).
Proof.
  intros Hok b n Hb. simpl in Hb. rewrite lookup_free_cells in Hb.
  destruct (decide (b ∈ l)); [done|]. by apply (Hok b n).
Qed.

(** *** What copy assignment leaves behind *)

Lemma owns_after_assign this h os ss csD ncs (w : World) :
  chain h csD -> fresh_in h ncs ->
  owns (mkMem (free_cells (push_cells h ncs) csD.*1) (<[this := L ncs]> os)
              ss w)
       this ncs.
Proof.
  intros HcD Hfn. split; simpl; [apply lookup_insert_eq|].
  apply (chain_agree (push_cells h ncs)); [apply chain_push_cells, Hfn|].
  intros a Ha. rewrite lookup_free_cells, decide_False; [done|].
  intros Hin. by apply (fresh_in_disjoint h ncs csD a).
Qed.

Lemma pairwise_equal_Forall2 xs ys :
  pairwise_equal xs ys = true <->
  Forall2 (fun x y => Type_ne x y = false) xs ys.
Proof.
  revert ys. induction xs as [|x xs IH]; intros [|y ys]; simpl.
  - split; [constructor|done].
  - split; [done|]. intros H. inversion H.
  - split; [done|]. intros H. inversion H.
  - rewrite andb_true_iff, negb_true_iff, IH. split.
    + intros [? ?]. by constructor.
    + intros H. inversion H. done.
Qed.

Lemma pairwise_equal_refl xs :
  (forall x, x ∈ xs -> Type_ne x x = false) -> pairwise_equal xs xs = true.
Proof.
  induction xs as [|x xs IH]; simpl; [done|]. intros H.
  rewrite H by (apply elem_of_cons; auto). simpl. apply IH.
  intros y Hy. apply H. apply elem_of_cons; auto.
Qed.

(** ** Properties of the generic container *)

(** C1.  When the copy assignment [D = S] ends by an exception, destination
    [D] is the list it was: the same object contents, hence the same size,
    and the same chain of nodes at the same addresses holding the same
    elements, so iterators into [D] still refer to the same elements.  The
    assignment never ends any other way than normally or by an exception,
    and an exception that leaves the copy of [S] leaves the assignment. *)
Theorem C1_assign_failure_keeps_destination fuel this rhs m csD csS :
  heap_ok m -> owns m this csD -> owns m rhs csS ->
  (length csD < fuel)%nat -> (length csS < fuel)%nat ->
  ((exists m', operator_assign fuel this rhs m = Normal tt m') \/
   (exists e m', operator_assign fuel this rhs m = Thrown e m')) /\
  (forall e m',
      operator_assign fuel this rhs m = Thrown e m' ->
      owns m' this csD /\
      objs m' = objs m /\
      GetSize this m' = Normal (Z.of_nat (length csD)) m' /\
      (forall a, a ∈ csD.*1 -> heap m' !! a = heap m !! a)) /\
  (forall e m1,
      SingleLinkedList_copy fuel (fresh (dom (objs m))) rhs m = Thrown e m1 ->
      exists m', operator_assign fuel this rhs m = Thrown e m').
Proof.
  intros Hok HD HS HlD HlS.
  destruct (operator_assign_spec fuel this rhs m csD csS Hok HD HS HlD HlS)
    as (ncs & ss & w & Hfn & Hres).
  split; [|split].
  - destruct Hres as [[-> _]|(e & -> & _)]; eauto.
  - intros e m' Hthrown.
    destruct Hres as [[Hres _]|(e' & Hres & _)]; rewrite Hres in Hthrown;
      [discriminate|].
    injection Hthrown as -> <-. destruct HD as [HoD HcD].
    assert (Hframe : forall a, a ∈ csD.*1 -> push_cells (heap m) ncs !! a = heap m !! a).
    { intros a Ha. apply lookup_push_cells_notin.
      by apply (fresh_in_disjoint (heap m) ncs csD). }
    split; [split; simpl; [done|by apply chain_push_frame]|].
    split; [done|]. split; [|done].
    by apply (get_size_eq _ _ (L csD)).
  - intros e m1 Hcopy. unfold SLL.operator_assign, try_catch_std.
    rewrite (with_local_ctor_Thrown fuel _ _ m _ _ Hcopy).
    unfold bind, release, throw. simpl.
    destruct (is_std_exception e); eauto.
Qed.


(** C5.  [PushFront(v)] returns exactly when the allocator hands out a
    node and the copy of [v] into it goes through: then one new node
    holding [v] is linked in front of the unchanged old chain, the size
    has grown by exactly one and [*begin()] is [v].  When the allocator
    has nothing to give, [std::bad_alloc] is thrown; when the copy of [v]
    throws, that exception is thrown; either way neither the list objects
    nor the free store have changed.  There is no other outcome. *)
Theorem C5_PushFront_all_or_nothing m o cs v :
  heap_ok m -> owns m o cs ->
  ((exists a m',
       PushFront o v m = Normal tt m' /\
       owns m' o ((a, v) :: cs) /\
       GetSize o m' = Normal (Z.of_nat (length cs) + 1)%Z m' /\
       begin o m' = Normal (heap_node a) m' /\
       Iterator_deref (heap_node a) m' = Normal v m' /\
       heap m !! a = None /\
       (forall b, b <> a -> heap m' !! b = heap m !! b) /\
       (forall o', o' <> o -> objs m' !! o' = objs m !! o') /\
       heap_ok m') \/
   (exists e m',
       PushFront o v m = Thrown e m' /\ heap m' = heap m /\ objs m' = objs m)) /\
  (forall w1 a w2,
      operator_new (world m) = (w1, Some a) ->
      heap m !! a = None -> (Z.pos a < 2 ^ SIZE_WIDTH)%Z ->
      Type_copy v w1 = (w2, None) ->
      PushFront o v m
      = Normal tt
          (mkMem (<[a := mkNode v (ptr_of cs)]> (heap m))
                 (<[o := mkList (heap_node a) (Z.of_nat (length cs) + 1)]>
                    (objs m))
                 (sentinels m) w2)) /\
  (forall w1,
      operator_new (world m) = (w1, None) ->
      PushFront o v m
      = Thrown bad_alloc (mkMem (heap m) (objs m) (sentinels m) w1)) /\
  (forall w1 a w2 e,
      operator_new (world m) = (w1, Some a) ->
      heap m !! a = None -> (Z.pos a < 2 ^ SIZE_WIDTH)%Z ->
      Type_copy v w1 = (w2, Some e) ->
      PushFront o v m
      = Thrown e (mkMem (heap m) (objs m) (sentinels m) w2)).
Proof.
  intros Hok Hown. pose proof Hown as [Ho Hc].
  assert (Hsz : forall a, heap m !! a = None -> (Z.pos a < 2 ^ SIZE_WIDTH)%Z ->
                size_t_wrap (Z.of_nat (length cs) + 1)
                = (Z.of_nat (length cs) + 1)%Z).
  { intros a Hfree Hlt.
    assert (Hn : a ∉ cs.*1).
    { intros Hin. destruct (chain_lookup _ _ _ Hc Hin). congruence. }
    apply size_t_wrap_small.
    pose proof (address_space_length (a :: cs.*1)) as Hb.
    simpl length in Hb. rewrite length_fmap in Hb.
    assert (Z.of_nat (S (length cs)) < 2 ^ SIZE_WIDTH)%Z; [|lia].
    apply Hb.
    - constructor; [done|]. by apply (chain_NoDup (heap m)).
    - intros b Hb'. apply elem_of_cons in Hb' as [->|Hb']; [done|].
      destruct (chain_lookup _ _ _ Hc Hb') as [n Hn']. by apply (Hok b n). }
  pose proof (PushFront_eq m o _ v Ho) as Heq.
  unfold SLL.new_Node_result in Heq. simpl head_next_node in Heq.
  simpl size_ in Heq.
  split; [|split; [|split]].
  - destruct (PushFront_cases m o _ v Ho)
      as [(a & w & Hpush & Hfree & Hlt)|(e & w & Hpush)]; [left|right].
    + assert (Hn : a ∉ cs.*1).
      { intros Hin. destruct (chain_lookup _ _ _ Hc Hin). congruence. }
      simpl in Hpush. rewrite (Hsz a Hfree Hlt) in Hpush.
      exists a. eexists. split; [exact Hpush|].
      assert (Hl : (Z.of_nat (length cs) + 1)%Z
                   = Z.of_nat (length ((a, v) :: cs))) by (simpl length; lia).
      split; [|split; [|split; [|split; [|split; [|split; [|split]]]]]].
      * split; simpl heap; simpl objs.
        -- rewrite lookup_insert_eq, Hl. done.
        -- split; [apply lookup_insert_eq|].
           apply (chain_agree (heap m)); [done|].
           intros b Hb. apply lookup_insert_ne. intros ->. done.
      * apply (get_size_eq _ _ (mkList (heap_node a) (Z.of_nat (length cs) + 1))).
        simpl. apply lookup_insert_eq.
      * apply (get_head_eq _ _ (mkList (heap_node a) (Z.of_nat (length cs) + 1))).
        simpl. apply lookup_insert_eq.
      * apply (Iterator_deref_heap _ _ (mkNode v (ptr_of cs))). simpl.
        apply lookup_insert_eq.
      * done.
      * intros b Hb. simpl. by rewrite lookup_insert_ne.
      * intros o' Ho'. simpl. by rewrite lookup_insert_ne.
      * by apply heap_ok_insert.
    + exists e. eexists. split; [exact Hpush|]. done.
  - intros w1 a w2 Hnew Hfree Hlt Hcopy.
    rewrite Heq, Hnew. cbv beta iota.
    rewrite bool_decide_eq_true_2 by done.
    apply Z.ltb_lt in Hlt as Hlt'. rewrite Hlt'. cbn [andb].
    rewrite Hcopy. cbv beta iota. by rewrite (Hsz a Hfree Hlt).
  - intros w1 Hnew. rewrite Heq, Hnew. done.
  - intros w1 a w2 e Hnew Hfree Hlt Hcopy.
    rewrite Heq, Hnew. cbv beta iota.
    rewrite bool_decide_eq_true_2 by done.
    apply Z.ltb_lt in Hlt as Hlt'. rewrite Hlt'. cbn [andb].
    rewrite Hcopy. done.
Qed.

(** C6.  [swap] exchanges the two list records (head link and size) and
    nothing else: the free store and the world are untouched, other list
    objects are untouched, what was [A.begin()] is now [B.begin()], and the
    sizes have changed places. *)
Theorem C6_swap_exchanges_head_and_size m a b la lb :
  objs m !! a = Some la -> objs m !! b = Some lb ->
  exists m',
    swap a b m = Normal tt m' /\
    heap m' = heap m /\ world m' = world m /\
    objs m' !! a = Some lb /\ objs m' !! b = Some la /\
    (forall o, o <> a -> o <> b -> objs m' !! o = objs m !! o) /\
    (exists it,
        begin a m = Normal it m /\ begin b m' = Normal it m' /\
        Iterator_eq it it = true) /\
    (exists sa sb,
        GetSize a m = Normal sa m /\ GetSize b m = Normal sb m /\
        GetSize a m' = Normal sb m' /\ GetSize b m' = Normal sa m').
Proof.
  intros Ha Hb. eexists. split; [by apply swap_spec|]. simpl.
  assert (Hb' : (<[b := la]> (<[a := lb]> (objs m)) : gmap _ _) !! b = Some la)
    by apply lookup_insert_eq.
  assert (Ha' : (<[b := la]> (<[a := lb]> (objs m)) : gmap _ _) !! a = Some lb).
  { destruct (decide (a = b)) as [->|Hne].
    - rewrite lookup_insert_eq. congruence.
    - rewrite lookup_insert_ne by done. apply lookup_insert_eq. }
  split; [done|]. split; [done|]. split; [done|]. split; [done|].
  split; [|split].
  - intros o Hoa Hob. by rewrite !lookup_insert_ne.
  - exists (head_next_node la). split; [by apply get_head_eq|].
    split; [by apply get_head_eq|]. by apply bool_decide_eq_true_2.
  - exists (size_ la), (size_ lb).
    split; [by apply get_size_eq|]. split; [by apply get_size_eq|].
    split; by apply get_size_eq.
Qed.

(** C7, as amended.  [A == B] is true exactly when the sizes are equal
    and the elements are pairwise equal (the element [!=] answers false)
    in iteration order; lists of different sizes are unequal, [A != B] is
    the negation, and a list none of whose elements is unequal to itself
    is equal to itself. *)
Theorem C7_equality fuel A B m ca cb :
  owns m A ca -> owns m B cb -> (length ca < fuel)%nat ->
  exists r sa sb,
    operator_eq fuel A B m = Normal r m /\
    operator_ne fuel A B m = Normal (negb r) m /\
    GetSize A m = Normal sa m /\ GetSize B m = Normal sb m /\
    (r = true <->
     sa = sb /\ Forall2 (fun x y => Type_ne x y = false) ca.*2 cb.*2) /\
    (sa <> sb -> r = false) /\
    ((forall x, x ∈ ca.*2 -> Type_ne x x = false) ->
     operator_eq fuel A A m = Normal true m).
Proof.
  intros HA HB Hf.
  pose proof (operator_eq_spec fuel A B m ca cb HA HB Hf) as Heq.
  exists (pairwise_equal ca.*2 cb.*2), (Z.of_nat (length ca)), (Z.of_nat (length cb)).
  split; [done|]. split.
  { unfold SLL.operator_ne. by mstep Heq. }
  split; [apply (get_size_eq _ _ (L ca)), HA|].
  split; [apply (get_size_eq _ _ (L cb)), HB|].
  split; [|split].
  - rewrite pairwise_equal_Forall2. split; [|tauto].
    intros H. split; [|done].
    apply Forall2_length in H. rewrite !length_fmap in H. by rewrite H.
  - intros Hne. destruct (pairwise_equal ca.*2 cb.*2) eqn:Hp; [|done].
    apply pairwise_equal_length in Hp. rewrite !length_fmap in Hp.
    by rewrite Hp in Hne.
  - intros Hirr. rewrite (operator_eq_spec fuel A A m ca ca HA HA Hf).
    by rewrite pairwise_equal_refl.
Qed.

(** C9.  On a valid list the [end()] that walks the chain, the [end()] of
    a const list and [cend()] all yield the null position and compare
    equal; on an empty list [begin()] equals [end()], in the mutable and
    in the read-only flavour. *)
Theorem C9_end_iterators_agree fuel o m cs :
  owns m o cs -> (length cs < fuel)%nat ->
  exists e_mut e_const e_c,
    end_ fuel o m = Normal e_mut m /\
    end_const o m = Normal e_const m /\
    cend o m = Normal e_c m /\
    Iterator_eq e_mut e_const = true /\
    Iterator_eq e_mut e_c = true /\
    (cs = [] ->
     exists b bc cb,
       begin o m = Normal b m /\ begin_const o m = Normal bc m /\
       cbegin o m = Normal cb m /\
       Iterator_eq b e_mut = true /\ Iterator_eq bc e_const = true /\
       Iterator_eq cb e_c = true).
Proof.
  intros [Ho Hc] Hf. exists nullptr, nullptr, nullptr.
  split; [by apply (end__spec fuel m o cs _ Ho)|].
  do 4 (split; [done|]).
  intros ->. exists nullptr, nullptr, nullptr.
  repeat split; by apply (get_head_eq _ _ _ Ho).
Qed.

(** C10, as amended.  Self-assignment [L = L] returns exactly when no
    step of the copy it makes fails, and then [L] is made of fresh nodes
    holding the same elements in the same order and has the same size,
    the nodes it had before being released.
    When a step fails (the default construction of a sentinel's element,
    an allocation, the copy of an element), what that step throws leaves
    the assignment and [L] is untouched.  It never ends any other way. *)
Theorem C10_self_assignment_keeps_value fuel l m cs :
  heap_ok m -> owns m l cs -> (length cs < fuel)%nat ->
  ((exists ncs m',
       operator_assign fuel l l m = Normal tt m' /\
       owns m' l ncs /\ ncs.*2 = cs.*2 /\
       GetSize l m' = Normal (Z.of_nat (length cs)) m' /\
       heap_ok m') \/
   (exists e m',
       operator_assign fuel l l m = Thrown e m' /\ owns m' l cs)) /\
  (copy_failure (heap m) cs.*2 (world m) = None ->
   exists ncs m',
     operator_assign fuel l l m = Normal tt m' /\
     owns m' l ncs /\ ncs.*2 = cs.*2 /\
     GetSize l m' = Normal (Z.of_nat (length cs)) m' /\
     heap_ok m' /\
     (forall a, a ∈ ncs.*1 -> heap m !! a = None) /\
     (forall a, a ∈ cs.*1 -> heap m' !! a = None)) /\
  (forall stage e,
      copy_failure (heap m) cs.*2 (world m) = Some (stage, e) ->
      exists m',
        operator_assign fuel l l m = Thrown e m' /\ owns m' l cs).
Proof.
  intros Hok Hown Hf.
  destruct (operator_assign_of_copy fuel l l m cs Hok Hown Hf)
    as [Hnormal Hthrown].
  set (tmp := fresh (dom (objs m))) in *.
  assert (Htmp : objs m !! tmp = None) by apply not_elem_of_dom, is_fresh.
  pose proof Hown as [Ho Hc].
  assert (Hnl : tmp <> l) by congruence.
  pose proof (copy_by_failure fuel tmp l m cs Hnl Hown Hf) as Hrun.
  assert (Hgood : copy_failure (heap m) cs.*2 (world m) = None ->
            exists ncs m',
              operator_assign fuel l l m = Normal tt m' /\
              owns m' l ncs /\ ncs.*2 = cs.*2 /\
              GetSize l m' = Normal (Z.of_nat (length cs)) m' /\
              heap_ok m' /\
              (forall a, a ∈ ncs.*1 -> heap m !! a = None) /\
              (forall a, a ∈ cs.*1 -> heap m' !! a = None)).
  { intros Hnone. rewrite Hnone in Hrun.
    destruct Hrun as (ncs & ss & w & Hfn & Hv & [v Hsv] & Hcopy).
    pose proof (owns_after_assign l (heap m) (objs m) (delete tmp ss) cs ncs
                  (Type_dtor v (destroy_all Type_dtor w cs.*2)) Hc Hfn)
      as Hown'.
    exists ncs. eexists. split; [by apply (Hnormal ncs ss w v)|].
    split; [done|]. split; [done|].
    assert (Hl : length cs = length ncs).
    { apply (f_equal length) in Hv. by rewrite !length_fmap in Hv. }
    split; [rewrite Hl; apply (get_size_eq _ _ (L ncs)), Hown'|].
    split.
    { apply (heap_ok_free_cells
               (mkMem (push_cells (heap m) ncs) (objs m) ss w)).
      by apply heap_ok_push_cells. }
    split; [intros a Ha; by apply Hfn|].
    intros a Ha. simpl. by rewrite lookup_free_cells, decide_True. }
  assert (Hkept : forall ncs os' ss (w : World),
             fresh_in (heap m) ncs -> os' !! l = objs m !! l ->
             owns (mkMem (push_cells (heap m) ncs) os' ss w) l cs).
  { intros ncs os' ss w Hfn Hl. split; simpl; [by rewrite Hl|].
    by apply chain_push_frame. }
  assert (Hbad : forall stage e,
            copy_failure (heap m) cs.*2 (world m) = Some (stage, e) ->
            exists m',
              operator_assign fuel l l m = Thrown e m' /\ owns m' l cs).
  { intros stage e Hsome. rewrite Hsome in Hrun.
    destruct stage.
    - destruct Hrun as (w & Hres). eexists.
      split; [exact (Hthrown _ _ Hres)|]. simpl.
      apply (Hkept []); [apply fresh_in_nil|]. by rewrite lookup_delete_ne.
    - destruct Hrun as (ss & w & Hres). eexists.
      split; [exact (Hthrown _ _ Hres)|]. simpl.
      apply (Hkept []); [apply fresh_in_nil|].
      rewrite lookup_delete_ne by done. by rewrite lookup_insert_ne.
    - destruct Hrun as (ss & w & Hres). eexists.
      split; [exact (Hthrown _ _ Hres)|]. simpl.
      apply (Hkept []); [apply fresh_in_nil|].
      rewrite lookup_delete_ne by done. by rewrite lookup_insert_ne.
    - destruct Hrun as (ncs & ss & w & Hfn & _ & Hres). eexists.
      split; [exact (Hthrown _ _ Hres)|]. simpl.
      apply (Hkept ncs); [done|].
      rewrite lookup_delete_ne by done. by rewrite lookup_insert_ne. }
  split; [|split; [exact Hgood|exact Hbad]].
  destruct (copy_failure (heap m) cs.*2 (world m)) as [[stage e]|] eqn:Hcf.
  - right. exists e. by apply (Hbad stage).
  - left. destruct (Hgood eq_refl) as (ncs & m' & H1 & H2 & H3 & H4 & H5 & _).
    by exists ncs, m'.
Qed.

(** What the six comparison operators return on two valid lists. *)
Lemma comparison_specs fuel A B m ca cb :
  owns m A ca -> owns m B cb -> (length ca < fuel)%nat ->
  (forall x, Type_lt x x = false) ->
  (forall x y, Type_lt x y = false -> Type_lt y x = false -> x = y) ->
  exists beq blt,
    operator_eq fuel A B m = Normal beq m /\
    operator_lt fuel A B m = Normal blt m /\
    (blt = true <-> lex_less ca.*2 cb.*2) /\
    operator_le fuel A B m = Normal (beq || blt) m /\
    operator_gt fuel A B m = Normal (negb (beq || blt)) m /\
    operator_ge fuel A B m = Normal (negb (beq || blt) || beq) m.
Proof.
  intros HA HB Hf Hirr Htot.
  exists (pairwise_equal ca.*2 cb.*2), (lex_compare ca.*2 cb.*2).
  split; [by apply operator_eq_spec|]. split; [by apply operator_lt_spec|].
  split; [split; [by apply lex_compare_less|by apply lex_less_compare]|].
  split; [by apply operator_le_spec|].
  split; [by apply operator_gt_spec|by apply operator_ge_spec].
Qed.

(** ** Further properties of the container *)

(** *** Walking a list with its iterators *)

Lemma chain_cell h cs : forall k a x,
  chain h cs -> cs !! k = Some (a, x) ->
  h !! a = Some (mkNode x (ptr_of (drop (S k) cs))).
Proof.
  induction cs as [|[a0 x0] rest IH]; intros [|k] a x Hc Hk; simpl in *;
    try discriminate Hk.
  - injection Hk as -> ->. rewrite drop_0. by destruct Hc.
  - destruct Hc as [_ Hc]. by apply IH.
Qed.

Lemma ptr_of_drop cs : forall k a x,
  cs !! k = Some (a, x) -> ptr_of (drop k cs) = heap_node a.
Proof.
  induction cs as [|[a0 x0] rest IH]; intros [|k] a x Hk; simpl in *;
    try discriminate Hk.
  - by injection Hk as -> ->.
  - by apply (IH k a x).
Qed.

Lemma advance_chain m : forall cs k,
  chain (heap m) cs -> (k <= length cs)%nat ->
  Iterator_advance k (ptr_of cs) m = Normal (ptr_of (drop k cs)) m.
Proof.
  induction cs as [|[a x] rest IH]; intros [|k] Hc Hk; simpl in Hk;
    try reflexivity; [lia|].
  simpl in Hc. destruct Hc as [Ha Hc]. simpl Iterator_advance. simpl ptr_of.
  mstep (Iterator_incr_heap _ _ _ Ha). simpl next_node.
  apply IH; [done|lia].
Qed.

(** X1.  Iterating a valid list: [k] increments of [begin()] stand on the
    [k]-th node, which is not [end()] and dereferences to the [k]-th
    element; post-increment there returns that same position and moves to
    the next one; exactly [GetSize()] increments reach [end()]; and
    incrementing or dereferencing [end()] is undefined. *)
Theorem X1_iteration_visits_the_elements_in_order m o cs :
  owns m o cs ->
  exists b,
    begin o m = Normal b m /\
    (forall k a x,
        cs !! k = Some (a, x) ->
        Iterator_advance k b m = Normal (heap_node a) m /\
        Iterator_ne (heap_node a) nullptr = true /\
        Iterator_deref (heap_node a) m = Normal x m /\
        exists next,
          Iterator_post_incr (heap_node a) m = Normal (heap_node a, next) m /\
          Iterator_advance (S k) b m = Normal next m) /\
    Iterator_advance (length cs) b m = Normal nullptr m /\
    Iterator_incr nullptr m = Undefined /\
    Iterator_deref nullptr m = Undefined /\
    Iterator_advance (S (length cs)) b m = Undefined.
Proof.
  intros [Ho Hc]. exists (ptr_of cs).
  split; [by apply (get_head_eq _ _ (L cs))|].
  assert (Hend : Iterator_advance (length cs) (ptr_of cs) m = Normal nullptr m).
  { rewrite advance_chain by (done || lia). by rewrite drop_all. }
  split; [|split; [done|split; [done|split; [done|]]]].
  - intros k a x Hk.
    pose proof (chain_cell _ _ _ _ _ Hc Hk) as Ha.
    pose proof (lookup_lt_Some _ _ _ Hk) as Hlt.
    split.
    { rewrite advance_chain by (done || lia). by rewrite (ptr_of_drop _ _ _ _ Hk). }
    split; [done|].
    split; [by apply (Iterator_deref_heap _ _ _ Ha)|].
    exists (ptr_of (drop (S k) cs)). split.
    + unfold Iterator_post_incr.
      by mstep (load_next_heap _ _ _ Ha).
    + by rewrite advance_chain by (done || lia).
  - assert (Hgen : forall (cs' : cells) k, chain (heap m) cs' ->
              k = S (length cs') ->
              Iterator_advance k (ptr_of cs') m = Undefined).
    { induction cs' as [|[a x] rest IH]; intros k Hc' ->; [reflexivity|].
      simpl in Hc'. destruct Hc' as [Ha Hc'].
      simpl length. simpl ptr_of.
      change (Iterator_advance (S (S (length rest))) (heap_node a) m)
        with (bind (Iterator_incr (heap_node a))
                (fun it' => Iterator_advance (S (length rest)) it') m).
      mstep (Iterator_incr_heap _ _ _ Ha). simpl next_node. by apply IH. }
    by apply Hgen.
Qed.

(** X2.  [IsEmpty()] answers true exactly when [GetSize()] is 0. *)
Theorem X2_IsEmpty_iff_size_zero m o cs :
  owns m o cs ->
  exists b n,
    IsEmpty o m = Normal b m /\ GetSize o m = Normal n m /\
    (b = true <-> n = 0%Z).
Proof.
  intros Hown. exists (bool_decide (cs = [])), (Z.of_nat (length cs)).
  split; [by apply IsEmpty_spec|]. split; [by apply GetSize_spec|].
  rewrite bool_decide_eq_true. destruct cs; simpl; split; try done; lia.
Qed.

(** X3.  [Clear()] never fails on a valid list: afterwards the list is
    empty with size 0, each of its nodes has left the free store, every
    other node, every other list object and every sentinel's element is
    untouched, and the elements were destroyed once each, first to last.
    The destructor does the same and then destroys the element of the
    list's own sentinel, after all the others. *)
Theorem X3_Clear_releases_every_node fuel o m cs :
  heap_ok m -> owns m o cs -> (length cs < fuel)%nat ->
  exists m',
    Clear fuel o m = Normal tt m' /\
    owns m' o [] /\
    GetSize o m' = Normal 0%Z m' /\
    IsEmpty o m' = Normal true m' /\
    (forall a, a ∈ cs.*1 -> heap m' !! a = None) /\
    (forall a, a ∉ cs.*1 -> heap m' !! a = heap m !! a) /\
    (forall o', o' <> o -> objs m' !! o' = objs m !! o') /\
    sentinels m' = sentinels m /\
    world m' = destroy_all Type_dtor (world m) cs.*2 /\
    (forall v,
        sentinels m !! o = Some v ->
        SingleLinkedList_dtor Type_dtor fuel o m
        = Normal tt (mkMem (heap m') (objs m') (delete o (sentinels m))
                           (Type_dtor v (world m')))).
Proof.
  intros Hok Hown Hf.
  pose proof (Clear_spec o cs fuel m (owns_length _ _ _ Hok Hown) Hown Hf) as HC.
  eexists. split; [exact HC|].
  assert (Hempty : owns (mkMem (free_cells (heap m) cs.*1)
                               (<[o := mkList nullptr 0]> (objs m))
                               (sentinels m)
                               (destroy_all Type_dtor (world m) cs.*2)) o []).
  { split; simpl; [apply lookup_insert_eq|done]. }
  split; [exact Hempty|].
  split; [by apply (GetSize_spec _ _ [])|].
  split; [by apply (IsEmpty_spec _ _ [])|].
  split; [|split; [|split; [|split; [done|split; [done|]]]]].
  - intros a Ha. simpl. by rewrite lookup_free_cells, decide_True.
  - intros a Ha. simpl. by rewrite lookup_free_cells, decide_False.
  - intros o' Ho'. simpl. by rewrite lookup_insert_ne.
  - intros v Hv. unfold SingleLinkedList_dtor.
    rewrite (bind_Normal _ _ _ _ _ HC).
    by rewrite (destroy_head__eq _ _ v).
Qed.

(** X4.  Constructing a list from a non-empty initializer list either
    succeeds, and then the list is made of freshly allocated nodes that
    hold the values in the order given and its size is their number, with
    every older node and every other list object untouched; or it throws,
    and then no node that was live before has been released or changed. *)
Theorem X4_initializer_list_keeps_the_order fuel this (values : list Type_) m :
  values <> [] -> (length values <= fuel)%nat ->
  (exists ncs m',
      SingleLinkedList_init_list fuel this values m = Normal tt m' /\
      owns m' this ncs /\ ncs.*2 = values /\
      GetSize this m' = Normal (Z.of_nat (length values)) m' /\
      (forall a, a ∈ ncs.*1 -> heap m !! a = None) /\
      (forall a, a ∉ ncs.*1 -> heap m' !! a = heap m !! a) /\
      (forall o', o' <> this -> objs m' !! o' = objs m !! o')) \/
  (exists e m',
      SingleLinkedList_init_list fuel this values m = Thrown e m' /\
      (forall a n, heap m !! a = Some n -> heap m' !! a = Some n)).
Proof.
  intros Hne Hf.
  destruct (SingleLinkedList_init_list_spec fuel this values m Hne Hf)
    as (ncs & ss & w & Hfn & [[Hres Hv]|[(e & Hres & _)|(e & Hres)]]);
    [left|right|right].
  2:{ exists e. eexists. split; [exact Hres|].
      intros a n Ha. simpl. rewrite lookup_push_cells_notin; [done|].
      intros Hin. destruct Hfn as [_ Hfn]. destruct (Hfn a Hin). congruence. }
  2:{ exists e. eexists. split; [exact Hres|]. done. }
  - exists ncs. eexists. split; [exact Hres|].
    assert (Hown : owns (grown (heap m) (objs m) ss this ncs w) this ncs).
    { split; simpl; [apply lookup_insert_eq|apply chain_push_cells, Hfn]. }
    split; [exact Hown|]. split; [done|].
    split.
    { rewrite <- Hv, length_fmap. by apply GetSize_spec. }
    split; [intros a Ha; by apply Hfn|].
    split.
    + intros a Ha. simpl. by apply lookup_push_cells_notin.
    + intros o' Ho'. simpl. by rewrite lookup_insert_ne.
Qed.

(** X5.  [PushFront] does not disturb iterators: after a successful call
    the new [begin()] differs from the old one, one increment of it is the
    old [begin()], and every node of the old chain has kept its element
    and its link. *)
Theorem X5_PushFront_keeps_iterators m o cs v m' :
  owns m o cs ->
  PushFront o v m = Normal tt m' ->
  exists b_old b_new,
    begin o m = Normal b_old m /\
    begin o m' = Normal b_new m' /\
    Iterator_ne b_new b_old = true /\
    Iterator_incr b_new m' = Normal b_old m' /\
    Iterator_deref b_new m' = Normal v m' /\
    (forall a, a ∈ cs.*1 -> heap m' !! a = heap m !! a).
Proof.
  intros [Ho Hc] Hrun.
  destruct (PushFront_cases m o _ v Ho)
    as [(a & w & Hpush & Hfree & Hlt)|(e & w & Hpush)];
    rewrite Hpush in Hrun; [|discriminate Hrun].
  injection Hrun as <-. simpl head_next_node.
  assert (Hn : a ∉ cs.*1).
  { intros Hin. destruct (chain_lookup _ _ _ Hc Hin). congruence. }
  exists (ptr_of cs), (heap_node a).
  split; [by apply (get_head_eq _ _ (L cs))|].
  split.
  { apply (get_head_eq _ _ (mkList (heap_node a)
                               (size_t_wrap (Z.of_nat (length cs) + 1)))).
    simpl. apply lookup_insert_eq. }
  split.
  { destruct cs as [|[a0 x0] rest]; [done|]. simpl.
    unfold Iterator_ne. rewrite bool_decide_eq_false_2; [done|].
    intros [= ->]. apply Hn. simpl. apply elem_of_cons. auto. }
  split.
  { apply (Iterator_incr_heap _ _ (mkNode v (ptr_of cs))). simpl.
    apply lookup_insert_eq. }
  split.
  { apply (Iterator_deref_heap _ _ (mkNode v (ptr_of cs))). simpl.
    apply lookup_insert_eq. }
  intros b Hb. simpl. apply lookup_insert_ne. intros ->. done.
Qed.

(** *** Copy construction and copy assignment, when they succeed *)

(** X6.  Copying an empty list copies no element and allocates no
    node.  It fails only when the element of one of the two sentinels
    cannot be default-constructed; otherwise the new list is empty, the
    free store is as before, and all the world has seen is the two
    default constructions and the end of the element of the sentinel of
    [tmp]. *)
Theorem X6_copy_of_an_empty_list fuel this other m :
  this <> other -> owns m other [] -> (0 < fuel)%nat ->
  SingleLinkedList_copy fuel this other m =
  match Type_ctor (world m) with
  | (w1, inl e) => Thrown e (mkMem (heap m) (objs m) (sentinels m) w1)
  | (w1, inr v) =>
      match Type_ctor w1 with
      | (w2, inl e) =>
          Thrown e (mkMem (heap m) (<[this := mkList nullptr 0]> (objs m))
                          (delete this (sentinels m)) (Type_dtor v w2))
      | (w2, inr vt) =>
          Normal tt
            (mkMem (heap m) (<[this := mkList nullptr 0]> (objs m))
                   (delete (fresh (dom (<[this := mkList nullptr 0]> (objs m))))
                      (<[this := v]> (sentinels m)))
                   (Type_dtor vt w2))
      end
  end.
Proof.
  intros Hne Hown Hf.
  rewrite (SingleLinkedList_copy_eq fuel this other m [] Hne Hown Hf).
  cbv zeta. simpl fmap. simpl SLL.push_values.
  destruct (Type_ctor (world m)) as [w1 [e|v]]; [done|].
  by destruct (Type_ctor w1) as [w2 [e|vt]].
Qed.

Lemma copy_Normal fuel this other m cs m' :
  this <> other -> owns m other cs -> (length cs < fuel)%nat ->
  SingleLinkedList_copy fuel this other m = Normal tt m' ->
  exists ncs ss w,
    fresh_in (heap m) ncs /\ ncs.*2 = cs.*2 /\
    m' = grown (heap m) (objs m) ss this ncs w.
Proof.
  intros Hne Hown Hf Hrun.
  destruct (SingleLinkedList_copy_spec fuel this other m cs Hne Hown Hf)
    as (ncs & ss & w & Hfn &
        [(Hres & Hv & _)|[(e & Hres & _)|(e & Hres)]]);
    rewrite Hres in Hrun; [|discriminate Hrun|discriminate Hrun].
  injection Hrun as <-. by exists ncs, ss, w.
Qed.

Lemma values_length (cs1 cs2 : cells) :
  cs1.*2 = cs2.*2 -> length cs1 = length cs2.
Proof. intros H. apply (f_equal length) in H. by rewrite !length_fmap in H. Qed.

(** X7.  A copy construction that returns has allocated exactly the nodes
    of the new list: as many as the source has, none of them live before,
    holding the source's elements in order; every other address of the
    free store reads as before, so the intermediate list is gone without
    a trace, and the only list object that changed is the new one. *)
Theorem X7_copy_leaves_only_the_new_nodes fuel this other m cs m' :
  this <> other -> owns m other cs -> (length cs < fuel)%nat ->
  SingleLinkedList_copy fuel this other m = Normal tt m' ->
  exists ncs,
    owns m' this ncs /\ ncs.*2 = cs.*2 /\
    GetSize this m' = Normal (Z.of_nat (length cs)) m' /\
    (forall a, a ∈ ncs.*1 -> heap m !! a = None) /\
    (forall a, a ∉ ncs.*1 -> heap m' !! a = heap m !! a) /\
    (forall o', o' <> this -> objs m' !! o' = objs m !! o') /\
    owns m' other cs.
Proof.
  intros Hne Hown Hf Hrun.
  destruct (copy_Normal fuel this other m cs m' Hne Hown Hf Hrun)
    as (ncs & ss & w & Hfn & Hv & ->).
  destruct Hown as [Ho Hc].
  assert (Hnew : owns (grown (heap m) (objs m) ss this ncs w) this ncs).
  { split; simpl; [apply lookup_insert_eq|apply chain_push_cells, Hfn]. }
  exists ncs. split; [done|]. split; [done|].
  split; [rewrite <- (values_length _ _ Hv); by apply GetSize_spec|].
  split; [intros a Ha; by apply Hfn|].
  split; [intros a Ha; simpl; by apply lookup_push_cells_notin|].
  split; [intros o' Ho'; simpl; by rewrite lookup_insert_ne|].
  split; simpl; [by rewrite lookup_insert_ne|by apply chain_push_frame].
Qed.

(** X8.  After a copy construction that returns, the copy and the source
    compare equal in both directions, provided no element of the source
    is unequal to itself; and when the source is not empty the two lists
    start at different nodes. *)
Theorem X8_a_copy_equals_its_source fuel this other m cs m' :
  this <> other -> owns m other cs -> (length cs < fuel)%nat ->
  (forall x, x ∈ cs.*2 -> Type_ne x x = false) ->
  SingleLinkedList_copy fuel this other m = Normal tt m' ->
  operator_eq fuel this other m' = Normal true m' /\
  operator_eq fuel other this m' = Normal true m' /\
  operator_ne fuel this other m' = Normal false m' /\
  (cs <> [] ->
   exists b1 b2,
     begin this m' = Normal b1 m' /\ begin other m' = Normal b2 m' /\
     Iterator_ne b1 b2 = true).
Proof.
  intros Hne Hown Hf Hirr Hrun.
  destruct (copy_Normal fuel this other m cs m' Hne Hown Hf Hrun)
    as (ncs & ss & w & Hfn & Hv & ->).
  pose proof Hown as [Ho Hc].
  assert (Hnew : owns (grown (heap m) (objs m) ss this ncs w) this ncs).
  { split; simpl; [apply lookup_insert_eq|apply chain_push_cells, Hfn]. }
  assert (Hold : owns (grown (heap m) (objs m) ss this ncs w) other cs).
  { split; simpl; [by rewrite lookup_insert_ne|by apply chain_push_frame]. }
  pose proof (values_length _ _ Hv) as Hl.
  assert (Heq1 : operator_eq fuel this other (grown (heap m) (objs m) ss this ncs w)
                 = Normal true (grown (heap m) (objs m) ss this ncs w)).
  { rewrite (operator_eq_spec fuel this other _ ncs cs Hnew Hold) by lia.
    by rewrite Hv, pairwise_equal_refl. }
  split; [exact Heq1|]. split.
  { rewrite (operator_eq_spec fuel other this _ cs ncs Hold Hnew) by lia.
    by rewrite Hv, pairwise_equal_refl. }
  split.
  { unfold SLL.operator_ne. by mstep Heq1. }
  intros Hcs. exists (ptr_of ncs), (ptr_of cs).
  split; [by apply (get_head_eq _ _ (L ncs)), Hnew|].
  split; [by apply (get_head_eq _ _ (L cs)), Hold|].
  destruct cs as [|[a x] rest]; [done|].
  destruct ncs as [|[a' x'] rest']; [discriminate Hl|].
  simpl. unfold Iterator_ne. rewrite bool_decide_eq_false_2; [done|].
  intros [= ->].
  apply (fresh_in_disjoint (heap m) ((a, x') :: rest') ((a, x) :: rest) a);
    try done; simpl; apply elem_of_cons; auto.
Qed.

Lemma assign_Normal fuel this rhs m csD csS m' :
  heap_ok m -> owns m this csD -> owns m rhs csS ->
  (length csD < fuel)%nat -> (length csS < fuel)%nat ->
  operator_assign fuel this rhs m = Normal tt m' ->
  exists ncs ss w,
    fresh_in (heap m) ncs /\ ncs.*2 = csS.*2 /\
    m' = mkMem (free_cells (push_cells (heap m) ncs) csD.*1)
               (<[this := L ncs]> (objs m)) ss w.
Proof.
  intros Hok HD HS HlD HlS Hrun.
  destruct (operator_assign_spec fuel this rhs m csD csS Hok HD HS HlD HlS)
    as (ncs & ss & w & Hfn & [[Hres Hv]|(e & Hres & _)]);
    rewrite Hres in Hrun; [|discriminate Hrun].
  injection Hrun as <-. by exists ncs, ss, w.
Qed.

Lemma owns_source_after_assign this rhs h os ss (csD csS ncs : cells)
    (w : World) :
  this <> rhs -> os !! rhs = Some (L csS) -> chain h csS ->
  fresh_in h ncs -> (forall a, a ∈ csS.*1 -> a ∉ csD.*1) ->
  owns (mkMem (free_cells (push_cells h ncs) csD.*1) (<[this := L ncs]> os)
              ss w)
       rhs csS.
Proof.
  intros Hne Ho Hc Hfn Hdisj. split; simpl; [by rewrite lookup_insert_ne|].
  apply (chain_agree h); [done|]. intros a Ha.
  rewrite lookup_free_cells, decide_False by auto.
  apply lookup_push_cells_notin. by apply (fresh_in_disjoint h ncs csS).
Qed.

(** X9.  A copy assignment [D = S] that returns leaves [D] made of nodes
    that were not live before and hold the elements of [S] in order, with
    the size of [S]; the nodes [D] had before are released; every other
    address and every other list object reads as before; and a source
    that is a different list sharing no node with [D] is still the list it
    was. *)
Theorem X9_assignment_replaces_the_destination fuel this rhs m csD csS m' :
  heap_ok m -> owns m this csD -> owns m rhs csS ->
  (length csD < fuel)%nat -> (length csS < fuel)%nat ->
  operator_assign fuel this rhs m = Normal tt m' ->
  exists ncs,
    owns m' this ncs /\ ncs.*2 = csS.*2 /\
    GetSize this m' = Normal (Z.of_nat (length csS)) m' /\
    (forall a, a ∈ ncs.*1 -> heap m !! a = None) /\
    (forall a, a ∈ csD.*1 -> heap m' !! a = None) /\
    (forall a, a ∉ ncs.*1 -> a ∉ csD.*1 -> heap m' !! a = heap m !! a) /\
    (forall o', o' <> this -> objs m' !! o' = objs m !! o') /\
    (this <> rhs -> (forall a, a ∈ csS.*1 -> a ∉ csD.*1) -> owns m' rhs csS) /\
    heap_ok m'.
Proof.
  intros Hok HD HS HlD HlS Hrun.
  destruct (assign_Normal fuel this rhs m csD csS m' Hok HD HS HlD HlS Hrun)
    as (ncs & ss & w & Hfn & Hv & ->).
  destruct HD as [HoD HcD]. destruct HS as [HoS HcS].
  pose proof (owns_after_assign this (heap m) (objs m) ss csD ncs w HcD Hfn)
    as Hnew.
  exists ncs. split; [done|]. split; [done|].
  split; [rewrite <- (values_length _ _ Hv); by apply GetSize_spec|].
  split; [intros a Ha; by apply Hfn|].
  split; [intros a Ha; simpl; by rewrite lookup_free_cells, decide_True|].
  split.
  { intros a Ha Ha'. simpl. rewrite lookup_free_cells, decide_False by done.
    by apply lookup_push_cells_notin. }
  split; [intros o' Ho'; simpl; by rewrite lookup_insert_ne|].
  split; [intros Hne Hdisj; by apply owns_source_after_assign|].
  apply (heap_ok_free_cells (mkMem (push_cells (heap m) ncs) (objs m) ss w)).
  by apply heap_ok_push_cells.
Qed.

(** X10.  After a copy assignment [D = S] that returns, [D == S] is true,
    provided no element of [S] is unequal to itself and [S] is [D] itself
    or a list sharing no node with it. *)
Theorem X10_assignment_makes_the_lists_equal fuel this rhs m csD csS m' :
  heap_ok m -> owns m this csD -> owns m rhs csS ->
  (length csD < fuel)%nat -> (length csS < fuel)%nat ->
  (this <> rhs -> forall a, a ∈ csS.*1 -> a ∉ csD.*1) ->
  (forall x, x ∈ csS.*2 -> Type_ne x x = false) ->
  operator_assign fuel this rhs m = Normal tt m' ->
  operator_eq fuel this rhs m' = Normal true m' /\
  operator_ne fuel this rhs m' = Normal false m'.
Proof.
  intros Hok HD HS HlD HlS Hdisj Hirr Hrun.
  destruct (assign_Normal fuel this rhs m csD csS m' Hok HD HS HlD HlS Hrun)
    as (ncs & ss & w & Hfn & Hv & ->).
  destruct HD as [HoD HcD]. destruct HS as [HoS HcS].
  pose proof (owns_after_assign this (heap m) (objs m) ss csD ncs w HcD Hfn)
    as Hnew.
  pose proof (values_length _ _ Hv) as Hl.
  set (m' := mkMem _ _ ss w) in *.
  assert (Heq : operator_eq fuel this rhs m' = Normal true m').
  { destruct (decide (this = rhs)) as [<-|Hne].
    - rewrite (operator_eq_spec fuel this this m' ncs ncs Hnew Hnew) by lia.
      rewrite pairwise_equal_refl; [done|]. by rewrite Hv.
    - assert (Hsrc : owns m' rhs csS)
        by (apply owns_source_after_assign; auto).
      rewrite (operator_eq_spec fuel this rhs m' ncs csS Hnew Hsrc) by lia.
      by rewrite Hv, pairwise_equal_refl. }
  split; [exact Heq|]. unfold SLL.operator_ne. by mstep Heq.
Qed.

(** X11.  A copy assignment that ends by an exception of the
    [std::exception] family has released every node it allocated: the
    free store and the list objects are exactly as before.  Whatever the
    exception, no node that was live before has been released or
    changed. *)
Theorem X11_failed_assignment_leaks_nothing fuel this rhs m csD csS e m' :
  heap_ok m -> owns m this csD -> owns m rhs csS ->
  (length csD < fuel)%nat -> (length csS < fuel)%nat ->
  operator_assign fuel this rhs m = Thrown e m' ->
  (is_std_exception e = true -> heap m' = heap m) /\
  objs m' = objs m /\
  (forall a n, heap m !! a = Some n -> heap m' !! a = Some n) /\
  owns m' rhs csS.
Proof.
  intros Hok HD HS HlD HlS Hrun.
  destruct (operator_assign_spec fuel this rhs m csD csS Hok HD HS HlD HlS)
    as (ncs & ss & w & Hfn & [[Hres Hv]|(e' & Hres & Hstd)]);
    rewrite Hres in Hrun; [discriminate Hrun|].
  injection Hrun as -> <-. simpl.
  split; [intros He; by rewrite (Hstd He)|]. split; [done|].
  split.
  - intros a n Ha. rewrite lookup_push_cells_notin; [done|].
    intros Hin. destruct Hfn as [_ Hfn]. destruct (Hfn a Hin). congruence.
  - destruct HS as [HoS HcS]. split; simpl; [done|by apply chain_push_frame].
Qed.

(** *** [swap], member and non-member *)

(** X12.  Swapping two lists twice, with the non-member [swap], puts the
    whole memory back as it was; the non-member [swap] is the member one;
    and [a.swap(b)] has the effect of [b.swap(a)]. *)
Theorem X12_swap_twice_restores m a b la lb :
  objs m !! a = Some la -> objs m !! b = Some lb ->
  bind (swap_lists a b) (fun _ => swap_lists a b) m = Normal tt m /\
  swap_lists a b m = swap a b m /\
  swap a b m = swap b a m.
Proof.
  intros Ha Hb. unfold swap_lists.
  pose proof (swap_spec m a b la lb Ha Hb) as H1.
  split; [|split; [done|]].
  - mstep H1.
    assert (Ha' : (<[b := la]> (<[a := lb]> (objs m)) : gmap _ _) !! a = Some lb).
    { destruct (decide (a = b)) as [->|Hne].
      - rewrite lookup_insert_eq. congruence.
      - rewrite lookup_insert_ne by done. apply lookup_insert_eq. }
    erewrite swap_spec; [|exact Ha'|simpl; apply lookup_insert_eq].
    destruct m as [h os ss w]. simpl in *. do 2 f_equal.
    apply map_eq. intros k.
    destruct (decide (k = b)) as [->|Hkb];
      [by rewrite lookup_insert_eq|rewrite lookup_insert_ne by done].
    destruct (decide (k = a)) as [->|Hka];
      [by rewrite lookup_insert_eq|by rewrite !lookup_insert_ne].
  - rewrite H1, (swap_spec m b a lb la Hb Ha). do 2 f_equal.
    destruct (decide (a = b)) as [->|Hne]; [congruence|].
    by apply insert_insert_ne.
Qed.

(** *** The comparison operators on a well-behaved element type *)

Lemma pairwise_equal_eq xs ys :
  (forall x y, Type_ne x y = false <-> x = y) ->
  pairwise_equal xs ys = true <-> xs = ys.
Proof.
  intros Hlaw. revert ys.
  induction xs as [|x xs IH]; intros [|y ys]; simpl; try done.
  rewrite andb_true_iff, negb_true_iff, Hlaw, IH. split.
  - by intros [-> ->].
  - by intros [= -> ->].
Qed.

Lemma lex_compare_irrefl xs :
  (forall x, Type_lt x x = false) -> lex_compare xs xs = false.
Proof.
  intros Hirr. induction xs as [|x xs IH]; simpl; [done|]. by rewrite Hirr.
Qed.

Lemma greater_is_flipped_less xs ys :
  (forall x y, Type_ne x y = false <-> x = y) ->
  (forall x, Type_lt x x = false) ->
  (forall x y, Type_lt x y = true -> Type_lt y x = false) ->
  (forall x y, Type_lt x y = false -> Type_lt y x = false -> x = y) ->
  negb (pairwise_equal xs ys || lex_compare xs ys) = lex_compare ys xs.
Proof.
  intros Hlaw Hirr Hasym Hconn. revert ys.
  induction xs as [|x xs IH]; intros [|y ys]; simpl; try done.
  destruct (Type_lt x y) eqn:Hxy.
  - rewrite (Hasym x y Hxy). by rewrite orb_true_r.
  - destruct (Type_lt y x) eqn:Hyx.
    + destruct (Type_ne x y) eqn:Hne; [done|].
      apply Hlaw in Hne. subst y. rewrite Hirr in Hyx. discriminate Hyx.
    + assert (x = y) as <- by auto.
      assert (Hne : Type_ne x x = false) by by apply Hlaw.
      rewrite Hne. simpl. apply IH.
Qed.

(** X13.  When the element [!=] is false exactly on equal elements,
    [A == B] is true exactly when the two lists hold the same sequence of
    elements, it gives the same answer as [B == A], and [A != B] is its
    negation; none of them changes the memory. *)
Theorem X13_equality_is_sequence_equality fuel A B m ca cb :
  owns m A ca -> owns m B cb ->
  (length ca < fuel)%nat -> (length cb < fuel)%nat ->
  (forall x y, Type_ne x y = false <-> x = y) ->
  exists r,
    operator_eq fuel A B m = Normal r m /\
    operator_eq fuel B A m = Normal r m /\
    operator_ne fuel A B m = Normal (negb r) m /\
    (r = true <-> ca.*2 = cb.*2).
Proof.
  intros HA HB HfA HfB Hlaw.
  pose proof (operator_eq_spec fuel A B m ca cb HA HB HfA) as H1.
  exists (pairwise_equal ca.*2 cb.*2).
  split; [exact H1|]. split; [|split].
  - rewrite (operator_eq_spec fuel B A m cb ca HB HA HfB). f_equal.
    destruct (pairwise_equal ca.*2 cb.*2) eqn:E1.
    + apply pairwise_equal_eq in E1; [|done]. rewrite E1.
      by apply pairwise_equal_eq.
    + destruct (pairwise_equal cb.*2 ca.*2) eqn:E2; [|done].
      apply pairwise_equal_eq in E2; [|done]. rewrite E2 in E1.
      assert (pairwise_equal ca.*2 ca.*2 = true) by by apply pairwise_equal_eq.
      congruence.
  - unfold SLL.operator_ne. by mstep H1.
  - by apply pairwise_equal_eq.
Qed.

(** X14.  When moreover the element [<] is irreflexive, asymmetric and
    orders any two different elements, the operators agree with each
    other like those of a total order: exactly one of [A == B], [A < B]
    and [B < A] is true, [A > B] is [B < A], [A <= B] is the negation of
    [B < A], and [A >= B] is the negation of [A < B]. *)
Theorem X14_ordering_operators_agree fuel A B m ca cb :
  owns m A ca -> owns m B cb ->
  (length ca < fuel)%nat -> (length cb < fuel)%nat ->
  (forall x y, Type_ne x y = false <-> x = y) ->
  (forall x, Type_lt x x = false) ->
  (forall x y, Type_lt x y = true -> Type_lt y x = false) ->
  (forall x y, Type_lt x y = false -> Type_lt y x = false -> x = y) ->
  exists beq blt bgt,
    operator_eq fuel A B m = Normal beq m /\
    operator_lt fuel A B m = Normal blt m /\
    operator_lt fuel B A m = Normal bgt m /\
    operator_gt fuel A B m = Normal bgt m /\
    operator_le fuel A B m = Normal (negb bgt) m /\
    operator_ge fuel A B m = Normal (negb blt) m /\
    ((beq = true /\ blt = false /\ bgt = false) \/
     (beq = false /\ blt = true /\ bgt = false) \/
     (beq = false /\ blt = false /\ bgt = true)).
Proof.
  intros HA HB HfA HfB Hlaw Hirr Hasym Hconn.
  pose proof (greater_is_flipped_less ca.*2 cb.*2 Hlaw Hirr Hasym Hconn) as Hflip.
  exists (pairwise_equal ca.*2 cb.*2), (lex_compare ca.*2 cb.*2),
         (lex_compare cb.*2 ca.*2).
  rewrite (operator_eq_spec fuel A B m ca cb HA HB HfA).
  rewrite (operator_lt_spec fuel A B m ca cb HA HB HfA).
  rewrite (operator_lt_spec fuel B A m cb ca HB HA HfB).
  rewrite (operator_gt_spec fuel A B m ca cb HA HB HfA).
  rewrite (operator_le_spec fuel A B m ca cb HA HB HfA).
  rewrite (operator_ge_spec fuel A B m ca cb HA HB HfA).
  rewrite <- Hflip.
  destruct (pairwise_equal ca.*2 cb.*2) eqn:Epe.
  - apply pairwise_equal_eq in Epe; [|done]. rewrite Epe.
    rewrite lex_compare_irrefl by done. simpl. repeat split; auto.
  - destruct (lex_compare ca.*2 cb.*2); simpl; repeat split; auto.
Qed.

(** X15.  A copy construction that ends by an exception, whatever it is,
    has not released or changed any node that was live before and has
    left the source the list it was; the intermediate list is gone.  When
    what failed is the default construction of the element of the new
    list's own sentinel, nothing has been written or allocated.
    Otherwise what the list under construction still links to are nodes
    of its own, and there are none of them when the exception belongs to
    the [std::exception] family. *)
Theorem X15_failed_copy_keeps_the_source fuel this other m cs e m' :
  this <> other -> owns m other cs -> (length cs < fuel)%nat ->
  SingleLinkedList_copy fuel this other m = Thrown e m' ->
  owns m' other cs /\
  (forall o', o' <> this -> objs m' !! o' = objs m !! o') /\
  (forall a n, heap m !! a = Some n -> heap m' !! a = Some n) /\
  match Type_ctor (world m) with
  | (_, inl e') => e = e' /\ objs m' = objs m /\ heap m' = heap m
  | (_, inr _) =>
      exists ncs,
        owns m' this ncs /\
        (forall a, a ∈ ncs.*1 -> heap m !! a = None) /\
        (forall a, a ∉ ncs.*1 -> heap m' !! a = heap m !! a) /\
        (is_std_exception e = true -> ncs = [])
  end.
Proof.
  intros Hne Hown Hf Hrun.
  pose proof (copy_by_failure fuel this other m cs Hne Hown Hf) as Hcase.
  unfold SLL.copy_failure in Hcase.
  destruct Hown as [Ho Hc].
  assert (Hgrown : forall ncs ss (w : World),
             fresh_in (heap m) ncs ->
             (is_std_exception e = true -> ncs = []) ->
             m' = grown (heap m) (objs m) ss this ncs w ->
             owns m' other cs /\
             (forall o', o' <> this -> objs m' !! o' = objs m !! o') /\
             (forall a n, heap m !! a = Some n -> heap m' !! a = Some n) /\
             exists ncs,
               owns m' this ncs /\
               (forall a, a ∈ ncs.*1 -> heap m !! a = None) /\
               (forall a, a ∉ ncs.*1 -> heap m' !! a = heap m !! a) /\
               (is_std_exception e = true -> ncs = [])).
  { intros ncs ss w Hfn Hstd ->.
    split; [split; simpl; [by rewrite lookup_insert_ne|by apply chain_push_frame]|].
    split; [intros o' Ho'; simpl; by rewrite lookup_insert_ne|].
    split.
    { intros a n Ha. simpl. rewrite lookup_push_cells_notin; [done|].
      intros Hin. destruct Hfn as [_ Hfn]. destruct (Hfn a Hin). congruence. }
    exists ncs.
    split; [split; simpl; [apply lookup_insert_eq|apply chain_push_cells, Hfn]|].
    split; [intros a Ha; by apply Hfn|].
    split; [intros a Ha; simpl; by apply lookup_push_cells_notin|done]. }
  destruct (Type_ctor (world m)) as [w1 [e1|v]].
  { destruct Hcase as (w & Hres). rewrite Hres in Hrun.
    injection Hrun as -> <-. simpl. by repeat split. }
  destruct (Type_ctor w1) as [w2 [e2|vt]].
  { destruct Hcase as (ss & w & Hres). rewrite Hres in Hrun.
    injection Hrun as -> Hm.
    by apply (Hgrown [] ss w (fresh_in_nil _)). }
  destruct (push_values (heap m) cs.*2 [] w2) as [[tcs w3] [e3|]].
  { destruct Hcase as (ss & w & Hres). rewrite Hres in Hrun.
    injection Hrun as -> Hm.
    by apply (Hgrown [] ss w (fresh_in_nil _)). }
  destruct (push_values (push_cells (heap m) tcs) tcs.*2 [] w3)
    as [[ncs w4] [e4|]].
  - destruct Hcase as (ncs' & ss & w & Hfn & Hstd & Hres). rewrite Hres in Hrun.
    injection Hrun as -> Hm.
    by apply (Hgrown ncs' ss w).
  - destruct Hcase as (ncs' & ss & w & _ & _ & _ & Hres). rewrite Hres in Hrun.
    discriminate Hrun.
Qed.

(** *** Default construction *)

(** X16.  The default constructor default-constructs the element of the
    sentinel and allocates nothing.  When that construction throws, the
    exception leaves the constructor and nothing has been written.
    Otherwise the new list is valid and empty: its size is 0, [IsEmpty]
    holds and [begin()] equals [end()]; the free store and the other
    list objects are untouched.  Destroying it right away destroys that
    element and nothing else. *)
Theorem X16_default_construction fuel this m :
  (0 < fuel)%nat ->
  match Type_ctor (world m) with
  | (w, inl e) =>
      SingleLinkedList_default Type_dtor Type_ctor this m
      = Thrown e (mkMem (heap m) (objs m) (sentinels m) w)
  | (w, inr v) =>
      exists m',
        SingleLinkedList_default Type_dtor Type_ctor this m = Normal tt m' /\
        owns m' this [] /\
        heap m' = heap m /\ world m' = w /\
        sentinels m' !! this = Some v /\
        (forall o', o' <> this -> objs m' !! o' = objs m !! o') /\
        GetSize this m' = Normal 0%Z m' /\
        IsEmpty this m' = Normal true m' /\
        (exists b e,
            begin this m' = Normal b m' /\ end_ fuel this m' = Normal e m' /\
            Iterator_eq b e = true) /\
        SingleLinkedList_dtor Type_dtor fuel this m'
        = Normal tt (mkMem (heap m) (<[this := mkList nullptr 0]> (objs m))
                           (delete this (sentinels m)) (Type_dtor v w))
  end.
Proof.
  intros Hf. rewrite SingleLinkedList_default_eq.
  destruct (Type_ctor (world m)) as [w [e|v]]; [done|].
  set (m' := grown (heap m) (objs m) (<[this := v]> (sentinels m)) this [] w).
  assert (Hown : owns m' this []).
  { split; simpl; [apply lookup_insert_eq|done]. }
  exists m'. split; [done|]. split; [exact Hown|].
  split; [done|]. split; [done|].
  split; [simpl; apply lookup_insert_eq|].
  split; [intros o' Ho'; simpl; by rewrite lookup_insert_ne|].
  split; [by apply (GetSize_spec _ _ [])|].
  split; [by apply (IsEmpty_spec _ _ [])|].
  split.
  { exists nullptr, nullptr.
    split; [by apply (get_head_eq _ _ (mkList nullptr 0)), Hown|].
    split; [|done].
    apply (end__spec fuel m' this [] 0%Z); [apply Hown|done|simpl; lia]. }
  unfold SingleLinkedList_dtor, m'.
  rewrite (bind_Normal _ _ _ _ _
             (Clear_grown (heap m) (objs m) _ this [] w fuel
                (fresh_in_nil _) Hf)).
  erewrite destroy_head__eq; [|simpl; apply lookup_insert_eq].
  simpl. do 2 f_equal. map_solve.
Qed.

End Facts.

(** * Properties at particular inputs *)

Import Elements.

(** C3.  Handed an empty initializer list, the constructor, once the
    element of its sentinel is there, steps its iterator below [begin()]
    and reads through it before it ever compares it with [begin()]: the
    behaviour is undefined.  Whatever the element type, no empty list of
    size 0 comes out; for [int] the outcome is undefined behaviour. *)
Theorem C3_empty_initializer_list_undefined {Type_ World : Type}
    (Type_copy : Type_ -> World -> World * option exception)
    (Type_dtor : Type_ -> World -> World)
    (operator_new : World -> World * option positive)
    (Type_ctor : World -> World * (exception + Type_))
    (fuel : nat) (this : positive) (m : @Mem Type_ World) :
  SingleLinkedList_init_list Type_copy Type_dtor operator_new Type_ctor
    (S fuel) this [] m
  = match Type_ctor (world m) with
    | (w, inl e) => Thrown e (mkMem (heap m) (objs m) (sentinels m) w)
    | (_, inr _) => Undefined
    end /\
  SingleLinkedList_init_list int_copy int_dtor int_new int_ctor
    (S fuel) this [] (mkMem ∅ ∅ ∅ 1%positive)
  = Undefined.
Proof.
  split; [|reflexivity].
  unfold SingleLinkedList_init_list. unfold bind at 1, construct_head_.
  destruct (Type_ctor (world m)) as [w [e|v]]; reflexivity.
Qed.

(** C4.  Construction from the two values [{counting, plain}], where the
    copy of the first one throws: the node already allocated for [plain]
    is still in the free store when the exception leaves the constructor,
    and the object under construction still links to it; all that has
    been destroyed is the element of its sentinel. *)
Theorem C4_failed_initializer_list_leaves_nodes :
  SingleLinkedList_init_list ThrowOnCopy_copy ThrowOnCopy_dtor test_new
    ThrowOnCopy_ctor 2 1 [counting 0; plain] zero_counter_mem
  = Thrown bad_alloc
      (mkMem {[1%positive := mkNode plain nullptr]}
             {[1%positive := mkList (heap_node 1) 1]}
             ∅
             (mkTestWorld [0%Z] 3)).
Proof. vm_compute. reflexivity. Qed.


Ltac owns_by_computation :=
  split; [vm_compute; reflexivity|];
  simpl; repeat (split; [vm_compute; reflexivity|]); exact I.

Lemma nan_test_list : owns nan_test_mem 1 nan_cells.
Proof. owns_by_computation. Defined.

(** C7, as stated, fails.  A [SingleLinkedList<double>] that holds a NaN
    is a valid list, yet [L == L] is false: the sizes agree, but the
    element [!=] tells the NaN apart from itself. *)
Lemma C7_counterexample_NaN :
  owns nan_test_mem 1 nan_cells /\
  operator_eq double_ne 2 1 1 nan_test_mem = Normal false nan_test_mem.
Proof.
  split; [exact nan_test_list|]. vm_compute. reflexivity.
Qed.

Lemma assign_test_mem_ok : heap_ok assign_test_mem.
Proof. apply (bool_decide_unpack _). vm_compute. exact I. Defined.

Lemma assign_test_dst : owns assign_test_mem 2 dst_cells.
Proof. owns_by_computation. Defined.

Lemma assign_test_src : owns assign_test_mem 1 src_cells.
Proof. owns_by_computation. Defined.

(** C10, as stated, fails.  [src_list = src_list] in the memory of the
    safe-assignment test: the list is valid, the copy constructor of its
    second element throws [std::bad_alloc] while the temporary copy is
    made, and the assignment does not succeed. *)
Lemma C10_counterexample_throwing_copy :
  heap_ok assign_test_mem /\
  owns assign_test_mem 1 src_cells /\
  operator_assign ThrowOnCopy_copy ThrowOnCopy_dtor test_new ThrowOnCopy_ctor
    4 1 1 assign_test_mem
  = Thrown bad_alloc
      (mkMem (heap assign_test_mem) (objs assign_test_mem)
             (sentinels assign_test_mem) (mkTestWorld [0%Z; 10%Z] 8)).
Proof.
  split; [exact assign_test_mem_ok|]. split; [exact assign_test_src|].
  vm_compute. reflexivity.
Qed.

(** The comparisons of the test-suite, run on lists built by the
    initializer-list constructor. *)
Lemma IntList_comparison_examples :
  IntList_compare (operator_lt int_lt) [1; 2; 3]%Z [1; 2; 3; 1]%Z = Some true /\
  IntList_compare (operator_le int_ne int_lt) [1; 2; 3]%Z [1; 2; 3]%Z = Some true /\
  IntList_compare (operator_gt int_ne int_lt) [1; 2; 4]%Z [1; 2; 3]%Z = Some true /\
  IntList_compare (operator_ge int_ne int_lt) [1; 2; 3]%Z [1; 2; 3]%Z = Some true.
Proof. split; [|split; [|split]]; vm_compute; reflexivity. Qed.

(** C8.  On two valid lists whose element [<] is a strict total order
    (irreflexive, and two elements it does not order are equal), [A < B]
    is true exactly when the element sequence of [A] is lexicographically
    less than that of [B]: after a common prefix either [A] ends and [B]
    goes on, or the next element of [A] is less than that of [B].  [<=] is
    [==] or [<], [>] is the negation of [<=], [>=] is [>] or [==].  The
    four comparisons of the test-suite come out true. *)
Theorem C8_lexicographic_ordering {Type_ World : Type}
    (Type_ne Type_lt : Type_ -> Type_ -> bool)
    (fuel : nat) (A B : positive) (m : @Mem Type_ World)
    (ca cb : list (positive * Type_)) :
  owns m A ca -> owns m B cb -> (length ca < fuel)%nat ->
  (forall x, Type_lt x x = false) ->
  (forall x y, Type_lt x y = false -> Type_lt y x = false -> x = y) ->
  (exists beq blt,
      operator_eq Type_ne fuel A B m = Normal beq m /\
      operator_lt Type_lt fuel A B m = Normal blt m /\
      (blt = true <-> lex_less Type_lt ca.*2 cb.*2) /\
      operator_le Type_ne Type_lt fuel A B m = Normal (beq || blt) m /\
      operator_gt Type_ne Type_lt fuel A B m = Normal (negb (beq || blt)) m /\
      operator_ge Type_ne Type_lt fuel A B m
      = Normal (negb (beq || blt) || beq) m) /\
  IntList_compare (operator_lt int_lt) [1; 2; 3]%Z [1; 2; 3; 1]%Z = Some true /\
  IntList_compare (operator_le int_ne int_lt) [1; 2; 3]%Z [1; 2; 3]%Z = Some true /\
  IntList_compare (operator_gt int_ne int_lt) [1; 2; 4]%Z [1; 2; 3]%Z = Some true /\
  IntList_compare (operator_ge int_ne int_lt) [1; 2; 3]%Z [1; 2; 3]%Z = Some true.
Proof.
  intros HA HB Hf Hirr Htot. split.
  - by apply comparison_specs.
  - apply IntList_comparison_examples.
Qed.

(** ** The theorems at the inputs of the test-suite *)

Lemma int_test_mem_ok : heap_ok int_test_mem.
Proof. apply (bool_decide_unpack _). vm_compute. exact I. Defined.

Lemma int_test_a : owns int_test_mem 1 int_cells_a.
Proof. owns_by_computation. Defined.

Lemma int_test_b : owns int_test_mem 2 int_cells_b.
Proof. owns_by_computation. Defined.

(** The safe-assignment test: [dst_list = src_list] throws
    [std::bad_alloc] and [dst_list] is as before. *)
Lemma C1_witness :
  operator_assign ThrowOnCopy_copy ThrowOnCopy_dtor test_new ThrowOnCopy_ctor
    4 2 1 assign_test_mem
  = Thrown bad_alloc
      (mkMem (heap assign_test_mem) (objs assign_test_mem)
             (sentinels assign_test_mem) (mkTestWorld [0%Z; 10%Z] 8)) /\
  owns (mkMem (heap assign_test_mem) (objs assign_test_mem)
              (sentinels assign_test_mem) (mkTestWorld [0%Z; 10%Z] 8))
       2 dst_cells.
Proof.
  assert (Hrun : operator_assign ThrowOnCopy_copy ThrowOnCopy_dtor test_new
                   ThrowOnCopy_ctor 4 2 1 assign_test_mem
                 = Thrown bad_alloc
                     (mkMem (heap assign_test_mem) (objs assign_test_mem)
                            (sentinels assign_test_mem)
                            (mkTestWorld [0%Z; 10%Z] 8))).
  { vm_compute. reflexivity. }
  split; [exact Hrun|].
  destruct (C1_assign_failure_keeps_destination
              ThrowOnCopy_copy ThrowOnCopy_dtor test_new ThrowOnCopy_ctor 4 2 1
              assign_test_mem dst_cells src_cells
              assign_test_mem_ok assign_test_dst assign_test_src
              ltac:(simpl; lia) ltac:(simpl; lia)) as (_ & Hkeep & _).
  exact (proj1 (Hkeep _ _ Hrun)).
Defined.


(** [dst_list.PushFront(ThrowOnCopy{})] in the memory of the
    safe-assignment test links a node at the address the allocator hands
    out; pushing an element whose countdown stands at zero throws
    [std::bad_alloc] and changes nothing but the allocator. *)
Lemma C5_witness :
  PushFront ThrowOnCopy_copy test_new 2 plain assign_test_mem
  = Normal tt
      (mkMem (<[6%positive := mkNode plain (heap_node 5)]> (heap assign_test_mem))
             (<[2%positive := mkList (heap_node 6) 3]> (objs assign_test_mem))
             (sentinels assign_test_mem) (mkTestWorld [0%Z; 10%Z] 7)) /\
  PushFront ThrowOnCopy_copy test_new 2 (counting 0) assign_test_mem
  = Thrown bad_alloc
      (mkMem (heap assign_test_mem) (objs assign_test_mem)
             (sentinels assign_test_mem) (mkTestWorld [0%Z; 10%Z] 7)).
Proof.
  split.
  - apply (proj1 (proj2 (C5_PushFront_all_or_nothing
                           ThrowOnCopy_copy test_new assign_test_mem 2 dst_cells
                           plain assign_test_mem_ok assign_test_dst))
             (mkTestWorld [0%Z; 10%Z] 7) 6%positive (mkTestWorld [0%Z; 10%Z] 7)).
    + reflexivity.
    + vm_compute. reflexivity.
    + vm_compute. reflexivity.
    + reflexivity.
  - apply (proj2 (proj2 (proj2 (C5_PushFront_all_or_nothing
                                  ThrowOnCopy_copy test_new assign_test_mem 2
                                  dst_cells (counting 0) assign_test_mem_ok
                                  assign_test_dst)))
             (mkTestWorld [0%Z; 10%Z] 7) 6%positive (mkTestWorld [0%Z; 10%Z] 7)).
    + reflexivity.
    + vm_compute. reflexivity.
    + vm_compute. reflexivity.
    + reflexivity.
Defined.

(** [src_list.swap(dst_list)] in the memory of the safe-assignment test. *)
Lemma C6_witness :
  exists m',
    swap 1 2 assign_test_mem = Normal tt m' /\
    heap m' = heap assign_test_mem /\ world m' = world assign_test_mem /\
    objs m' !! 1%positive = Some (mkList (heap_node 5) 2) /\
    objs m' !! 2%positive = Some (mkList (heap_node 3) 3) /\
    (forall o, o <> 1%positive -> o <> 2%positive ->
               objs m' !! o = objs assign_test_mem !! o) /\
    (exists it,
        begin 1 assign_test_mem = Normal it assign_test_mem /\
        begin 2 m' = Normal it m' /\ Iterator_eq it it = true) /\
    (exists sa sb,
        GetSize 1 assign_test_mem = Normal sa assign_test_mem /\
        GetSize 2 assign_test_mem = Normal sb assign_test_mem /\
        GetSize 1 m' = Normal sb m' /\ GetSize 2 m' = Normal sa m').
Proof.
  apply (C6_swap_exchanges_head_and_size assign_test_mem 1 2
           (mkList (heap_node 3) 3) (mkList (heap_node 5) 2)).
  - vm_compute. reflexivity.
  - vm_compute. reflexivity.
Defined.

(** [{1, 2, 3} == {1, 2, 3, 1}] on [IntList]s. *)
Lemma C7_witness :
  exists r sa sb,
    operator_eq int_ne 4 1 2 int_test_mem = Normal r int_test_mem /\
    operator_ne int_ne 4 1 2 int_test_mem = Normal (negb r) int_test_mem /\
    GetSize 1 int_test_mem = Normal sa int_test_mem /\
    GetSize 2 int_test_mem = Normal sb int_test_mem /\
    (r = true <->
     sa = sb /\
     Forall2 (fun x y => int_ne x y = false) int_cells_a.*2 int_cells_b.*2) /\
    (sa <> sb -> r = false) /\
    ((forall x, x ∈ int_cells_a.*2 -> int_ne x x = false) ->
     operator_eq int_ne 4 1 1 int_test_mem = Normal true int_test_mem).
Proof.
  apply (C7_equality int_ne 4 1 2 int_test_mem int_cells_a int_cells_b).
  - exact int_test_a.
  - exact int_test_b.
  - simpl. lia.
Defined.

Lemma int_lt_irreflexive (x : Z) : int_lt x x = false.
Proof. apply Z.ltb_irrefl. Defined.

Lemma int_lt_connected (x y : Z) :
  int_lt x y = false -> int_lt y x = false -> x = y.
Proof.
  unfold int_lt. intros H1 H2.
  apply Z.ltb_ge in H1. apply Z.ltb_ge in H2. lia.
Defined.

(** [{1, 2, 3}] against [{1, 2, 3, 1}] on [IntList]s. *)
Lemma C8_witness :
  exists beq blt,
    operator_eq int_ne 4 1 2 int_test_mem = Normal beq int_test_mem /\
    operator_lt int_lt 4 1 2 int_test_mem = Normal blt int_test_mem /\
    (blt = true <-> lex_less int_lt int_cells_a.*2 int_cells_b.*2) /\
    operator_le int_ne int_lt 4 1 2 int_test_mem
    = Normal (beq || blt) int_test_mem /\
    operator_gt int_ne int_lt 4 1 2 int_test_mem
    = Normal (negb (beq || blt)) int_test_mem /\
    operator_ge int_ne int_lt 4 1 2 int_test_mem
    = Normal (negb (beq || blt) || beq) int_test_mem.
Proof.
  apply (C8_lexicographic_ordering int_ne int_lt 4 1 2 int_test_mem
           int_cells_a int_cells_b).
  - exact int_test_a.
  - exact int_test_b.
  - simpl. lia.
  - exact int_lt_irreflexive.
  - exact int_lt_connected.
Defined.

(** The end iterators of [dst_list]. *)
Lemma C9_witness :
  exists e_mut e_const e_c,
    end_ 3 2 assign_test_mem = Normal e_mut assign_test_mem /\
    end_const 2 assign_test_mem = Normal e_const assign_test_mem /\
    cend 2 assign_test_mem = Normal e_c assign_test_mem /\
    Iterator_eq e_mut e_const = true /\
    Iterator_eq e_mut e_c = true /\
    (dst_cells = [] ->
     exists b bc cb,
       begin 2 assign_test_mem = Normal b assign_test_mem /\
       begin_const 2 assign_test_mem = Normal bc assign_test_mem /\
       cbegin 2 assign_test_mem = Normal cb assign_test_mem /\
       Iterator_eq b e_mut = true /\ Iterator_eq bc e_const = true /\
       Iterator_eq cb e_c = true).
Proof.
  apply (C9_end_iterators_agree 3 2 assign_test_mem dst_cells).
  - exact assign_test_dst.
  - simpl. lia.
Defined.

(** [{1, 2, 3} = {1, 2, 3}] on one and the same [IntList]: no step of
    the copy fails and the list comes out with its elements.
    [dst_list = dst_list] in the memory of the safe-assignment test. *)
Lemma C10_witness :
  (exists ncs m',
      operator_assign int_copy int_dtor int_new int_ctor 4 1 1 int_test_mem
      = Normal tt m' /\
      owns m' 1 ncs /\ ncs.*2 = int_cells_a.*2 /\
      GetSize 1 m' = Normal (Z.of_nat (length int_cells_a)) m' /\
      heap_ok m' /\
      (forall a, a ∈ ncs.*1 -> heap int_test_mem !! a = None) /\
      (forall a, a ∈ int_cells_a.*1 -> heap m' !! a = None)) /\
  ((exists ncs m',
       operator_assign ThrowOnCopy_copy ThrowOnCopy_dtor test_new
         ThrowOnCopy_ctor 3 2 2 assign_test_mem = Normal tt m' /\
       owns m' 2 ncs /\ ncs.*2 = dst_cells.*2 /\
       GetSize 2 m' = Normal (Z.of_nat (length dst_cells)) m' /\
       heap_ok m') \/
   (exists e m',
       operator_assign ThrowOnCopy_copy ThrowOnCopy_dtor test_new
         ThrowOnCopy_ctor 3 2 2 assign_test_mem = Thrown e m' /\
       owns m' 2 dst_cells)).
Proof.
  split.
  - apply (proj1 (proj2 (C10_self_assignment_keeps_value
                           int_copy int_dtor int_new int_ctor 4 1 int_test_mem
                           int_cells_a int_test_mem_ok int_test_a
                           ltac:(simpl; lia)))).
    vm_compute. reflexivity.
  - apply (proj1 (C10_self_assignment_keeps_value
                    ThrowOnCopy_copy ThrowOnCopy_dtor test_new ThrowOnCopy_ctor
                    3 2 assign_test_mem dst_cells assign_test_mem_ok
                    assign_test_dst ltac:(simpl; lia))).
Defined.

(** ** The further properties at the inputs of the test-suite *)

Lemma int_ne_lawful (x y : Z) : int_ne x y = false <-> x = y.
Proof.
  unfold int_ne. rewrite negb_false_iff. apply Z.eqb_eq.
Defined.

Lemma int_ne_irreflexive (l : list Z) (x : Z) : x ∈ l -> int_ne x x = false.
Proof. intros _. by apply int_ne_lawful. Defined.

Lemma int_lt_asymmetric (x y : Z) : int_lt x y = true -> int_lt y x = false.
Proof.
  unfold int_lt. intros H. apply Z.ltb_lt in H. apply Z.ltb_ge. lia.
Defined.

Lemma int_cells_disjoint :
  forall a, a ∈ int_cells_b.*1 -> a ∉ int_cells_a.*1.
Proof.
  apply (proj1 (Forall_forall (fun a => a ∉ int_cells_a.*1) int_cells_b.*1)).
  apply (bool_decide_unpack _). vm_compute. exact I.
Defined.

Lemma empty_list_owned : owns empty_list_mem 1 [].
Proof. owns_by_computation. Defined.

(** Walking [{1, 2, 3}]. *)
Lemma X1_witness :
  exists b,
    begin 1 int_test_mem = Normal b int_test_mem /\
    (forall k a x,
        int_cells_a !! k = Some (a, x) ->
        Iterator_advance k b int_test_mem = Normal (heap_node a) int_test_mem /\
        Iterator_ne (heap_node a) nullptr = true /\
        Iterator_deref (heap_node a) int_test_mem = Normal x int_test_mem /\
        exists next,
          Iterator_post_incr (heap_node a) int_test_mem
          = Normal (heap_node a, next) int_test_mem /\
          Iterator_advance (S k) b int_test_mem = Normal next int_test_mem) /\
    Iterator_advance (length int_cells_a) b int_test_mem
    = Normal nullptr int_test_mem /\
    Iterator_incr nullptr int_test_mem = Undefined /\
    Iterator_deref nullptr int_test_mem = Undefined /\
    Iterator_advance (S (length int_cells_a)) b int_test_mem = Undefined.
Proof.
  apply (X1_iteration_visits_the_elements_in_order int_test_mem 1 int_cells_a).
  exact int_test_a.
Defined.

Lemma X2_witness :
  exists b n,
    IsEmpty 1 empty_list_mem = Normal b empty_list_mem /\
    GetSize 1 empty_list_mem = Normal n empty_list_mem /\
    (b = true <-> n = 0%Z).
Proof.
  apply (X2_IsEmpty_iff_size_zero empty_list_mem 1 []).
  exact empty_list_owned.
Defined.

(** Clearing and destroying [{1, 2, 3, 1}]. *)
Lemma X3_witness :
  exists m',
    Clear int_dtor 5 2 int_test_mem = Normal tt m' /\
    owns m' 2 [] /\
    GetSize 2 m' = Normal 0%Z m' /\
    IsEmpty 2 m' = Normal true m' /\
    (forall a, a ∈ int_cells_b.*1 -> heap m' !! a = None) /\
    (forall a, a ∉ int_cells_b.*1 -> heap m' !! a = heap int_test_mem !! a) /\
    (forall o', o' <> 2%positive -> objs m' !! o' = objs int_test_mem !! o') /\
    sentinels m' = sentinels int_test_mem /\
    world m' = destroy_all int_dtor (world int_test_mem) int_cells_b.*2 /\
    (forall v,
        sentinels int_test_mem !! 2%positive = Some v ->
        SingleLinkedList_dtor int_dtor 5 2 int_test_mem
        = Normal tt (mkMem (heap m') (objs m')
                           (delete 2%positive (sentinels int_test_mem))
                           (int_dtor v (world m')))).
Proof.
  apply (X3_Clear_releases_every_node int_dtor 5 2 int_test_mem int_cells_b).
  - exact int_test_mem_ok.
  - exact int_test_b.
  - simpl. lia.
Defined.

(** [IntList{1, 2, 3, 4, 5}] built beside the two lists. *)
Lemma X4_witness :
  (exists ncs m',
      SingleLinkedList_init_list int_copy int_dtor int_new int_ctor 5 3
        [1; 2; 3; 4; 5]%Z int_test_mem
      = Normal tt m' /\
      owns m' 3 ncs /\ ncs.*2 = [1; 2; 3; 4; 5]%Z /\
      GetSize 3 m' = Normal (Z.of_nat (length [1; 2; 3; 4; 5]%Z)) m' /\
      (forall a, a ∈ ncs.*1 -> heap int_test_mem !! a = None) /\
      (forall a, a ∉ ncs.*1 -> heap m' !! a = heap int_test_mem !! a) /\
      (forall o', o' <> 3%positive -> objs m' !! o' = objs int_test_mem !! o')) \/
  (exists e m',
      SingleLinkedList_init_list int_copy int_dtor int_new int_ctor 5 3
        [1; 2; 3; 4; 5]%Z int_test_mem
      = Thrown e m' /\
      (forall a n, heap int_test_mem !! a = Some n -> heap m' !! a = Some n)).
Proof.
  apply (X4_initializer_list_keeps_the_order int_copy int_dtor int_new int_ctor
           5 3
           [1; 2; 3; 4; 5]%Z int_test_mem).
  - intros H. discriminate H.
  - simpl. lia.
Defined.

(** [PushFront(5)] on [{1, 2, 3}]. *)
Lemma X5_witness :
  exists b_old b_new,
    begin 1 int_test_mem = Normal b_old int_test_mem /\
    begin 1 int_pushed_mem = Normal b_new int_pushed_mem /\
    Iterator_ne b_new b_old = true /\
    Iterator_incr b_new int_pushed_mem = Normal b_old int_pushed_mem /\
    Iterator_deref b_new int_pushed_mem = Normal 5%Z int_pushed_mem /\
    (forall a, a ∈ int_cells_a.*1 ->
               heap int_pushed_mem !! a = heap int_test_mem !! a).
Proof.
  apply (X5_PushFront_keeps_iterators int_copy int_new int_test_mem 1
           int_cells_a 5%Z int_pushed_mem).
  - exact int_test_a.
  - vm_compute. reflexivity.
Defined.

Lemma X6_witness :
  SingleLinkedList_copy int_copy int_dtor int_new int_ctor 1 2 1 empty_list_mem
  = Normal tt
      (mkMem (heap empty_list_mem)
             (<[2%positive := mkList nullptr 0]> (objs empty_list_mem))
             (<[2%positive := 0%Z]> (sentinels empty_list_mem))
             (world empty_list_mem)).
Proof.
  refine (eq_trans
            (X6_copy_of_an_empty_list int_copy int_dtor int_new int_ctor 1 2 1
               empty_list_mem ltac:(intros H; discriminate H) empty_list_owned
               ltac:(lia)) _).
  vm_compute. reflexivity.
Defined.

(** Copying [{1, 2, 3}] into a third list. *)
Lemma X7_witness :
  exists ncs,
    owns int_copied_mem 3 ncs /\ ncs.*2 = int_cells_a.*2 /\
    GetSize 3 int_copied_mem
    = Normal (Z.of_nat (length int_cells_a)) int_copied_mem /\
    (forall a, a ∈ ncs.*1 -> heap int_test_mem !! a = None) /\
    (forall a, a ∉ ncs.*1 -> heap int_copied_mem !! a = heap int_test_mem !! a) /\
    (forall o', o' <> 3%positive ->
                objs int_copied_mem !! o' = objs int_test_mem !! o') /\
    owns int_copied_mem 1 int_cells_a.
Proof.
  apply (X7_copy_leaves_only_the_new_nodes int_copy int_dtor int_new int_ctor
           4 3 1
           int_test_mem int_cells_a int_copied_mem).
  - intros H. discriminate H.
  - exact int_test_a.
  - simpl. lia.
  - vm_compute. reflexivity.
Defined.

Lemma X8_witness :
  operator_eq int_ne 4 3 1 int_copied_mem = Normal true int_copied_mem /\
  operator_eq int_ne 4 1 3 int_copied_mem = Normal true int_copied_mem /\
  operator_ne int_ne 4 3 1 int_copied_mem = Normal false int_copied_mem /\
  (int_cells_a <> [] ->
   exists b1 b2,
     begin 3 int_copied_mem = Normal b1 int_copied_mem /\
     begin 1 int_copied_mem = Normal b2 int_copied_mem /\
     Iterator_ne b1 b2 = true).
Proof.
  apply (X8_a_copy_equals_its_source int_copy int_dtor int_ne int_new int_ctor
           4 3 1
           int_test_mem int_cells_a int_copied_mem).
  - intros H. discriminate H.
  - exact int_test_a.
  - simpl. lia.
  - exact (int_ne_irreflexive int_cells_a.*2).
  - vm_compute. reflexivity.
Defined.

(** [{1, 2, 3} = {1, 2, 3, 1}]. *)
Lemma X9_witness :
  exists ncs,
    owns int_assigned_mem 1 ncs /\ ncs.*2 = int_cells_b.*2 /\
    GetSize 1 int_assigned_mem
    = Normal (Z.of_nat (length int_cells_b)) int_assigned_mem /\
    (forall a, a ∈ ncs.*1 -> heap int_test_mem !! a = None) /\
    (forall a, a ∈ int_cells_a.*1 -> heap int_assigned_mem !! a = None) /\
    (forall a, a ∉ ncs.*1 -> a ∉ int_cells_a.*1 ->
               heap int_assigned_mem !! a = heap int_test_mem !! a) /\
    (forall o', o' <> 1%positive ->
                objs int_assigned_mem !! o' = objs int_test_mem !! o') /\
    (1%positive <> 2%positive ->
     (forall a, a ∈ int_cells_b.*1 -> a ∉ int_cells_a.*1) ->
     owns int_assigned_mem 2 int_cells_b) /\
    heap_ok int_assigned_mem.
Proof.
  apply (X9_assignment_replaces_the_destination int_copy int_dtor int_new
           int_ctor 5 1 2
           int_test_mem int_cells_a int_cells_b int_assigned_mem).
  - exact int_test_mem_ok.
  - exact int_test_a.
  - exact int_test_b.
  - simpl. lia.
  - simpl. lia.
  - vm_compute. reflexivity.
Defined.

Lemma X10_witness :
  operator_eq int_ne 5 1 2 int_assigned_mem = Normal true int_assigned_mem /\
  operator_ne int_ne 5 1 2 int_assigned_mem = Normal false int_assigned_mem.
Proof.
  apply (X10_assignment_makes_the_lists_equal int_copy int_dtor int_ne int_new
           int_ctor 5 1 2 int_test_mem int_cells_a int_cells_b int_assigned_mem).
  - exact int_test_mem_ok.
  - exact int_test_a.
  - exact int_test_b.
  - simpl. lia.
  - simpl. lia.
  - intros _. exact int_cells_disjoint.
  - exact (int_ne_irreflexive int_cells_b.*2).
  - vm_compute. reflexivity.
Defined.

(** The safe-assignment test once more: nothing leaks. *)
Lemma X11_witness :
  (is_std_exception bad_alloc = true ->
   heap assign_failed_mem = heap assign_test_mem) /\
  objs assign_failed_mem = objs assign_test_mem /\
  (forall a n, heap assign_test_mem !! a = Some n ->
               heap assign_failed_mem !! a = Some n) /\
  owns assign_failed_mem 1 src_cells.
Proof.
  apply (X11_failed_assignment_leaks_nothing ThrowOnCopy_copy ThrowOnCopy_dtor
           test_new ThrowOnCopy_ctor 4 2 1 assign_test_mem dst_cells src_cells bad_alloc
           assign_failed_mem).
  - exact assign_test_mem_ok.
  - exact assign_test_dst.
  - exact assign_test_src.
  - simpl. lia.
  - simpl. lia.
  - vm_compute. reflexivity.
Defined.

Lemma X12_witness :
  bind (swap_lists 1 2) (fun _ => swap_lists 1 2) assign_test_mem
  = Normal tt assign_test_mem /\
  swap_lists 1 2 assign_test_mem = swap 1 2 assign_test_mem /\
  swap 1 2 assign_test_mem = swap 2 1 assign_test_mem.
Proof.
  apply (X12_swap_twice_restores assign_test_mem 1 2
           (mkList (heap_node 3) 3) (mkList (heap_node 5) 2)).
  - vm_compute. reflexivity.
  - vm_compute. reflexivity.
Defined.

Lemma X13_witness :
  exists r,
    operator_eq int_ne 5 1 2 int_test_mem = Normal r int_test_mem /\
    operator_eq int_ne 5 2 1 int_test_mem = Normal r int_test_mem /\
    operator_ne int_ne 5 1 2 int_test_mem = Normal (negb r) int_test_mem /\
    (r = true <-> int_cells_a.*2 = int_cells_b.*2).
Proof.
  apply (X13_equality_is_sequence_equality int_ne 5 1 2 int_test_mem
           int_cells_a int_cells_b).
  - exact int_test_a.
  - exact int_test_b.
  - simpl. lia.
  - simpl. lia.
  - exact int_ne_lawful.
Defined.

Lemma X14_witness :
  exists beq blt bgt,
    operator_eq int_ne 5 1 2 int_test_mem = Normal beq int_test_mem /\
    operator_lt int_lt 5 1 2 int_test_mem = Normal blt int_test_mem /\
    operator_lt int_lt 5 2 1 int_test_mem = Normal bgt int_test_mem /\
    operator_gt int_ne int_lt 5 1 2 int_test_mem = Normal bgt int_test_mem /\
    operator_le int_ne int_lt 5 1 2 int_test_mem
    = Normal (negb bgt) int_test_mem /\
    operator_ge int_ne int_lt 5 1 2 int_test_mem
    = Normal (negb blt) int_test_mem /\
    ((beq = true /\ blt = false /\ bgt = false) \/
     (beq = false /\ blt = true /\ bgt = false) \/
     (beq = false /\ blt = false /\ bgt = true)).
Proof.
  apply (X14_ordering_operators_agree int_ne int_lt 5 1 2 int_test_mem
           int_cells_a int_cells_b).
  - exact int_test_a.
  - exact int_test_b.
  - simpl. lia.
  - simpl. lia.
  - exact int_ne_lawful.
  - exact int_lt_irreflexive.
  - exact int_lt_asymmetric.
  - exact int_lt_connected.
Defined.

(** Copying [src_list] of the safe-assignment test into a third list. *)
Lemma X15_witness :
  owns copy_failed_mem 1 src_cells /\
  (forall o', o' <> 3%positive ->
              objs copy_failed_mem !! o' = objs assign_test_mem !! o') /\
  (forall a n, heap assign_test_mem !! a = Some n ->
               heap copy_failed_mem !! a = Some n) /\
  exists ncs,
    owns copy_failed_mem 3 ncs /\
    (forall a, a ∈ ncs.*1 -> heap assign_test_mem !! a = None) /\
    (forall a, a ∉ ncs.*1 -> heap copy_failed_mem !! a = heap assign_test_mem !! a) /\
    (is_std_exception bad_alloc = true -> ncs = []).
Proof.
  apply (X15_failed_copy_keeps_the_source ThrowOnCopy_copy ThrowOnCopy_dtor
           test_new ThrowOnCopy_ctor 4 3 1 assign_test_mem src_cells bad_alloc
           copy_failed_mem).
  - intros H. discriminate H.
  - exact assign_test_src.
  - simpl. lia.
  - vm_compute. reflexivity.
Defined.

(** A fresh [IntList] beside the two lists, and its end. *)
Lemma X16_witness :
  exists m',
    SingleLinkedList_default int_dtor int_ctor 3 int_test_mem = Normal tt m' /\
    owns m' 3 [] /\
    heap m' = heap int_test_mem /\ world m' = world int_test_mem /\
    sentinels m' !! 3%positive = Some 0%Z /\
    (forall o', o' <> 3%positive -> objs m' !! o' = objs int_test_mem !! o') /\
    GetSize 3 m' = Normal 0%Z m' /\
    IsEmpty 3 m' = Normal true m' /\
    (exists b e,
        begin 3 m' = Normal b m' /\ end_ 1 3 m' = Normal e m' /\
        Iterator_eq b e = true) /\
    SingleLinkedList_dtor int_dtor 1 3 m'
    = Normal tt (mkMem (heap int_test_mem)
                       (<[3%positive := mkList nullptr 0]> (objs int_test_mem))
                       (delete 3%positive (sentinels int_test_mem))
                       (int_dtor 0%Z (world int_test_mem))).
Proof.
  apply (X16_default_construction int_dtor int_ctor 1 3 int_test_mem). lia.
Defined.
